(** * The batch-insertion prover service: shape validation, input hash,
      Prove/Verify orchestration and the [/prove] HTTP handler.

    The development embeds [prover/proving_system.go] and [server/server.go].
    Integers of Go ([uint32], [int], [big.Int]) are values of [Z]; byte slices
    are lists of [Byte.byte]; a Go [error] is represented by its message and
    [nil] by [None]. Platform: [int] is 64 bits wide, so that the conversion
    [int(x)] of a [uint32] keeps the value. Receivers and arguments passed by
    pointer are not nil, and no two [big.Int] share their digits; a nil slice
    and an empty one are the same list. Calls that leave the program (the
    proving backend, the logger, the request body, the response writer) are
    the commands of a free monad, answered by a handler over a state of the
    outside world. *)

From Stdlib Require Import ZArith Lia List Bool.
From Stdlib Require Import Strings.Byte.
From stdpp Require Import base option list strings gmap pretty.

Local Open Scope Z_scope.

(** ** Bytes *)

Definition Z_of_byte (b : byte) : Z := Z.of_N (Byte.to_N b).

(** The conversion [byte(v)] of Go: the low eight bits of [v]. *)
Definition byte_of_Z (v : Z) : byte :=
  match Byte.of_N (Z.to_N (v mod 256)) with
  | Some b => b
  | None => x00
  end.

(** [make([]byte, n)]: [n] zero bytes. *)
Definition make_bytes (n : Z) : list byte := replicate (Z.to_nat n) x00.

Definition len {A} (l : list A) : Z := Z.of_nat (length l).

(** ** [math/big]: the two methods of [big.Int] the prover calls.

    A [big.Int] is a sign and a magnitude, here an integer of [Z]. *)

(** Little-endian base-256 digits of a positive number; [fuel] bounds the
    number of digits produced. *)
Fixpoint le_digits (fuel : nat) (v : Z) : list byte :=
  match fuel with
  | O => []
  | S fuel' => if v <=? 0 then [] else byte_of_Z v :: le_digits fuel' (v / 256)
  end.

(** [x.Bytes()]: the absolute value of [x] as a big-endian byte slice, without
    leading zero bytes (the empty slice for zero). *)
Definition big_Int_Bytes (x : Z) : list byte :=
  rev (le_digits (S (Z.to_nat (Z.log2 (Z.abs x)))) (Z.abs x)).

(** The value of a big-endian byte string, accumulated from the left. *)
Definition be_value (bs : list byte) : Z :=
  fold_left (fun acc b => acc * 256 + Z_of_byte b) bs 0.

(** [z.SetBytes(buf)]: [buf] read as a big-endian unsigned integer. *)
Definition big_Int_SetBytes (buf : list byte) : Z := be_value buf.

(** ** [encoding/binary] and [bytes.Buffer] *)

Definition error := string.

(** [err != nil] *)
Definition not_nil (err : option error) : bool :=
  match err with
  | Some _ => true
  | None => false
  end.

(** [io.Writer]: [Write] returns the writer after the call, the number of bytes
    written and an error. *)
Class Writer (W : Type) := io_Write : W -> list byte -> W * Z * option error.

(** [bytes.Buffer]: the unread bytes. Its [Write] appends and always returns a
    [nil] error. *)
Record bytes_Buffer := { buffer_contents : list byte }.

Definition bytes_Buffer_new : bytes_Buffer := {| buffer_contents := [] |}.

Definition bytes_Buffer_Bytes (b : bytes_Buffer) : list byte := buffer_contents b.

#[export] Instance bytes_Buffer_Writer : Writer bytes_Buffer :=
  fun b p => ({| buffer_contents := buffer_contents b ++ p |}, len p, None).

(** [binary.BigEndian.PutUint32] for a [uint32] [v]. *)
Definition BigEndian_PutUint32 (v : Z) : list byte :=
  [ byte_of_Z (Z.shiftr v 24); byte_of_Z (Z.shiftr v 16);
    byte_of_Z (Z.shiftr v 8); byte_of_Z v ].

(** [binary.Write(w, binary.BigEndian, v)] for a [uint32] [v]: the four bytes
    are handed to [w.Write] and its error is returned. *)
Definition binary_Write_uint32 {W} `{Writer W} (w : W) (v : Z) : W * option error :=
  let '(w', _, err) := io_Write w (BigEndian_PutUint32 v) in (w', err).

(** ** Keccak-256, the function behind [keccak256.Hash]

    The library function is not part of the repository; it is the original
    Keccak with rate 136, capacity 64, padding [0x01 .. 0x80] and a 32-byte
    digest. The state is 25 lanes of 64 bits, lane [(x, y)] at index
    [x + 5 * y]. *)
Module Keccak.

Definition mask64 : Z := Z.ones 64.

Definition rotl64 (v : Z) (n : Z) : Z :=
  Z.lor (Z.land (Z.shiftl v n) mask64) (Z.shiftr v (64 - n)).

Definition lane (st : list Z) (x y : nat) : Z :=
  nth ((x mod 5) + 5 * (y mod 5))%nat st 0.

Definition lanes (f : nat -> nat -> Z) : list Z :=
  flat_map (fun y => map (fun x => f x y) (seq 0 5)) (seq 0 5).

Definition rotation_offsets : list Z :=
  [  0;  1; 62; 28; 27;
    36; 44;  6; 55; 20;
     3; 10; 43; 25; 39;
    41; 45; 15; 21;  8;
    18;  2; 61; 56; 14 ].

Definition round_constants : list Z :=
  [ 0x0000000000000001; 0x0000000000008082; 0x800000000000808A;
    0x8000000080008000; 0x000000000000808B; 0x0000000080000001;
    0x8000000080008081; 0x8000000000008009; 0x000000000000008A;
    0x0000000000000088; 0x0000000080008009; 0x000000008000000A;
    0x000000008000808B; 0x800000000000008B; 0x8000000000008089;
    0x8000000000008003; 0x8000000000008002; 0x8000000000000080;
    0x000000000000800A; 0x800000008000000A; 0x8000000080008081;
    0x8000000000008080; 0x0000000080000001; 0x8000000080008008 ].

Definition theta (st : list Z) : list Z :=
  let c x := fold_left Z.lxor (map (lane st x) (seq 0 5)) 0 in
  let d x := Z.lxor (c (x + 4)%nat) (rotl64 (c (x + 1)%nat) 1) in
  lanes (fun x y => Z.lxor (lane st x y) (d x)).

(** rho and pi together: lane [(x, y)], rotated, moves to [(y, 2x + 3y)];
    read backwards, the lane at [(x, y)] comes from [(x + 3y, x)]. *)
Definition rho_pi (st : list Z) : list Z :=
  lanes (fun x y =>
    let x0 := ((x + 3 * y) mod 5)%nat in
    let y0 := x in
    rotl64 (lane st x0 y0) (nth (x0 + 5 * y0)%nat rotation_offsets 0)).

Definition chi (st : list Z) : list Z :=
  lanes (fun x y =>
    Z.lxor (lane st x y)
      (Z.land (Z.lxor (lane st (x + 1) y) mask64) (lane st (x + 2) y))).

Definition iota (rc : Z) (st : list Z) : list Z :=
  match st with
  | [] => []
  | a :: st' => Z.lxor a rc :: st'
  end.

Definition round (st : list Z) (rc : Z) : list Z :=
  iota rc (chi (rho_pi (theta st))).

Definition keccak_f (st : list Z) : list Z := fold_left round round_constants st.

Definition rate : nat := 136.

(** A lane from eight bytes, little-endian. *)
Definition lane_of_bytes (bs : list byte) : Z :=
  fold_right (fun b acc => Z_of_byte b + 256 * acc) 0 bs.

Fixpoint bytes_of_lane (n : nat) (v : Z) : list byte :=
  match n with
  | O => []
  | S n' => byte_of_Z v :: bytes_of_lane n' (Z.shiftr v 8)
  end.

Fixpoint chunks {A} (fuel size : nat) (l : list A) : list (list A) :=
  match fuel with
  | O => []
  | S fuel' =>
      match l with
      | [] => []
      | _ => take size l :: chunks fuel' size (drop size l)
      end
  end.

(** Padding to a multiple of the rate: a [0x01] byte, zero bytes, and the top
    bit of the last byte set. *)
Definition pad (msg : list byte) : list byte :=
  let q := (rate - (length msg mod rate))%nat in
  msg ++ (if (q =? 1)%nat then [x81] else x01 :: replicate (q - 2) x00 ++ [x80]).

Definition absorb (st : list Z) (block : list byte) : list Z :=
  let ls := map lane_of_bytes (chunks (length block) 8 block) in
  keccak_f (zip_with Z.lxor st (ls ++ replicate (25 - length ls) 0)).

Definition Hash (data : list byte) : list byte :=
  let p := pad data in
  let st := fold_left absorb (chunks (length p) rate p) (replicate 25 0) in
  take 32 (flat_map (bytes_of_lane 8) st).

End Keccak.

Definition keccak256_Hash (data : list byte) : list byte := Keccak.Hash data.

(** ** [prover/proving_system.go] *)

Record Parameters := {
  InputHash : Z;
  StartIndex : Z;
  PreRoot : Z;
  PostRoot : Z;
  IdComms : list Z;
  MerkleProofs : list (list Z)
}.

(** The assignment [p.InputHash = h] to the receiver [p]. *)
Definition set_InputHash (h : Z) (p : Parameters) : Parameters :=
  {| InputHash := h;
     StartIndex := StartIndex p;
     PreRoot := PreRoot p;
     PostRoot := PostRoot p;
     IdComms := IdComms p;
     MerkleProofs := MerkleProofs p |}.

(** The loop [for i, proof := range p.MerkleProofs] of [ValidateShape], from
    index [i] on. *)
Fixpoint ValidateShape_proofs (i : Z) (proofs : list (list Z)) (treeDepth : Z)
  : option error :=
  match proofs with
  | [] => None
  | proof :: rest =>
      if negb (len proof =? treeDepth)
      then Some ("wrong size of merkle proof for proof " +:+ pretty i +:+ ": "
                 +:+ pretty (len proof))
      else ValidateShape_proofs (i + 1) rest treeDepth
  end.

Definition ValidateShape (p : Parameters) (treeDepth batchSize : Z) : option error :=
  if negb (len (IdComms p) =? batchSize)
  then Some ("wrong number of identity commitments: " +:+ pretty (len (IdComms p)))
  else if negb (len (MerkleProofs p) =? batchSize)
  then Some ("wrong number of merkle proofs: " +:+ pretty (len (MerkleProofs p)))
  else ValidateShape_proofs 0 (MerkleProofs p) treeDepth.

(** The body of the loop over [p.IdComms] in [ComputeInputHash]: the bytes
    appended to [data] for the entry [v]. *)
Definition idComm_bytes (v : Z) : list byte :=
  let idBytes := big_Int_Bytes v in
  if len idBytes <? 32
  then make_bytes (32 - len idBytes) ++ idBytes
  else idBytes.

(** [ComputeInputHash] up to the call of the hash function: the byte string
    [data], or the error of [binary.Write]. *)
Definition ComputeInputHash_data (p : Parameters) : list byte + error :=
  let data := [] in
  let buf := bytes_Buffer_new in
  let '(buf, err) := binary_Write_uint32 buf (StartIndex p) in
  match err with
  | Some e => inr e
  | None =>
      let data := data ++ bytes_Buffer_Bytes buf in
      let data := data ++ big_Int_Bytes (PreRoot p) in
      let data := data ++ big_Int_Bytes (PostRoot p) in
      inl (fold_left (fun data v => data ++ idComm_bytes v) (IdComms p) data)
  end.

(** [ComputeInputHash]: the returned error and the receiver after the call. *)
Definition ComputeInputHash (p : Parameters) : option error * Parameters :=
  match ComputeInputHash_data p with
  | inr e => (Some e, p)
  | inl data =>
      let hashBytes := keccak256_Hash data in
      (None, set_InputHash (big_Int_SetBytes hashBytes) p)
  end.

(** *** The encoding as the specification words it *)

(** [n] bytes, big-endian, of [v]. *)
Definition spec_be_fixed (n : nat) (v : Z) : list byte :=
  map (fun i => byte_of_Z (v / 256 ^ Z.of_nat (n - 1 - i))) (seq 0 n).

(** The number of bytes of the shortest big-endian representation. *)
Definition spec_byte_length (v : Z) : nat :=
  if v =? 0 then 0%nat else Z.to_nat (Z.log2 (Z.abs v) / 8 + 1).

(** The minimal big-endian representation, without padding, of the magnitude
    of [v]. *)
Definition spec_minimal_be (v : Z) : list byte :=
  spec_be_fixed (spec_byte_length v) (Z.abs v).

(** Zero bytes on the left up to [n] bytes. *)
Definition spec_pad_left (n : nat) (bs : list byte) : list byte :=
  replicate (n - length bs) x00 ++ bs.

Definition spec_encoding (p : Parameters) : list byte :=
  spec_be_fixed 4 (StartIndex p)
  ++ spec_minimal_be (PreRoot p)
  ++ spec_minimal_be (PostRoot p)
  ++ concat (map (fun v => spec_pad_left 32 (spec_minimal_be v)) (IdComms p)).

Definition spec_input_hash (p : Parameters) : Z :=
  be_value (keccak256_Hash (spec_encoding p)).

(** ** The proving backend and the other collaborators

    gnark's types are opaque here, and so is the body of an HTTP request. *)
Class Extern := {
  groth16_Proof : Type;
  groth16_ProvingKey : Type;
  groth16_VerifyingKey : Type;
  constraint_ConstraintSystem : Type;
  witness_Witness : Type;
  io_ReadCloser : Type
}.

(** A [frontend.Variable] is an [interface{}]: [nil], or one of the values the
    prover stores in it. *)
Inductive Value :=
| big_Int_value (x : Z)
| uint32_value (x : Z).

Definition frontend_Variable := option Value.

(** Modelled from the spec: the declaration of [MbuCircuit] is not among the
    sources; the fields are the ones that the composite literals of
    [BuildR1CS], [Prove] and [Verify] name, and the input hash is the single
    public one. *)
Module Circuit.
Record MbuCircuit := {
  InputHash : frontend_Variable;
  StartIndex : frontend_Variable;
  PreRoot : frontend_Variable;
  PostRoot : frontend_Variable;
  IdComms : list frontend_Variable;
  MerkleProofs : list (list frontend_Variable);
  BatchSize : Z;
  Depth : Z
}.
End Circuit.
Abbreviation MbuCircuit := Circuit.MbuCircuit.

(** The calls that leave the program. *)
Inductive Cmd `{Extern} : Type -> Type :=
| frontend_NewWitness (assignment : MbuCircuit) (publicOnly : bool)
    : Cmd (witness_Witness + error)
| groth16_Prove (ccs : constraint_ConstraintSystem) (pk : groth16_ProvingKey)
    (w : witness_Witness) : Cmd (groth16_Proof + error)
| groth16_Verify (proof : groth16_Proof) (vk : groth16_VerifyingKey)
    (w : witness_Witness) : Cmd (option error)
| Logger_Info (msg : string) : Cmd unit
| Logger_Error (err : option error) (msg : string) : Cmd unit
| io_ReadAll (r : io_ReadCloser) : Cmd (list byte * option error)
| ResponseWriter_WriteHeader (statusCode : Z) : Cmd unit
| ResponseWriter_Write (b : list byte) : Cmd (Z * option error).

(** A computation: it returns, panics, or makes a call and goes on with the
    answer. *)
Inductive prog `{Extern} (A : Type) : Type :=
| Ret (a : A)
| Panic (msg : string)
| Do {X : Type} (c : Cmd X) (k : X -> prog A).
Arguments Ret {_ _} a.
Arguments Panic {_ _} msg.
Arguments Do {_ _ _} c k.

Fixpoint bind `{Extern} {A B} (m : prog A) (f : A -> prog B) : prog B :=
  match m with
  | Ret a => f a
  | Panic msg => Panic msg
  | Do c k => Do c (fun x => bind (k x) f)
  end.

Definition call `{Extern} {X} (c : Cmd X) : prog X := Do c Ret.

Notation "x <- m ;; k" := (bind m (fun x => k))
  (at level 100, m at level 99, right associativity).

(** What a call was answered. *)
Inductive Event `{Extern} :=
| Ev {X : Type} (c : Cmd X) (x : X).

Inductive outcome (A : Type) :=
| Returned (a : A)
| Panicked (msg : string).
Arguments Returned {_} a.
Arguments Panicked {_} msg.

(** The collaborators' side: a state and the answer to every call. *)
Class Handler `{Extern} := {
  World : Type;
  handle : forall X, Cmd X -> World -> X * World
}.

Fixpoint run `{Handler} {A} (m : prog A) (w : World) : outcome A * list Event * World :=
  match m with
  | Ret a => (Returned a, [], w)
  | Panic msg => (Panicked msg, [], w)
  | Do c k =>
      let '(x, w1) := handle _ c w in
      let '(r, tr, w2) := run (k x) w1 in
      (r, Ev c x :: tr, w2)
  end.

Definition result_of `{Handler} {A} (m : prog A) (w : World) : outcome A := (run m w).1.1.
Definition trace_of `{Handler} {A} (m : prog A) (w : World) : list Event := (run m w).1.2.

(** *** Slices of variables *)

(** [make([]T, n)] at a type whose zero value is [zero]. *)
Definition make {T} (zero : T) (n : Z) : list T := replicate (Z.to_nat n) zero.

(** [l[i]]: a run-time panic outside the slice. *)
Definition index `{Extern} {T} (l : list T) (i : Z) : prog T :=
  match (if i <? 0 then None else l !! Z.to_nat i) with
  | Some v => Ret v
  | None => Panic "index out of range"
  end.

(** [l[i] = v] *)
Definition store `{Extern} {T} (l : list T) (i : Z) (v : T) : prog (list T) :=
  if (0 <=? i) && (i <? len l) then Ret (<[Z.to_nat i := v]> l)
  else Panic "index out of range".

(** [for i := start; i < start + count; i++ { body }] over the state [s]. *)
Fixpoint for_loop `{Extern} {S} (count : nat) (i : Z) (body : Z -> S -> prog S) (s : S)
  : prog S :=
  match count with
  | O => Ret s
  | Datatypes.S count' => s' <- body i s ;; for_loop count' (i + 1) body s'
  end.

(** *** Setup results, [Prove] and [Verify] *)

Record prover_Proof `{Extern} := { Proof_ : groth16_Proof }.

Record ProvingSystem `{Extern} := {
  TreeDepth : Z;
  BatchSize : Z;
  ProvingKey : groth16_ProvingKey;
  VerifyingKey : groth16_VerifyingKey;
  ConstraintSystem : constraint_ConstraintSystem
}.

Definition Prove `{Extern} (ps : ProvingSystem) (params : Parameters)
  : prog (prover_Proof + error) :=
  match ValidateShape params (TreeDepth ps) (BatchSize ps) with
  | Some err => Ret (inr err)
  | None =>
      let idComms := make (None : frontend_Variable) (BatchSize ps) in
      idComms <- for_loop (Z.to_nat (BatchSize ps)) 0
                   (fun i idComms =>
                      v <- index (IdComms params) i ;;
                      store idComms i (Some (big_Int_value v)))
                   idComms ;;
      let proofs := make ([] : list frontend_Variable) (BatchSize ps) in
      proofs <- for_loop (Z.to_nat (BatchSize ps)) 0
                  (fun i proofs =>
                     proofs <- store proofs i (make None (TreeDepth ps)) ;;
                     for_loop (Z.to_nat (TreeDepth ps)) 0
                       (fun j proofs =>
                          dst <- index proofs i ;;
                          row <- index (MerkleProofs params) i ;;
                          v <- index row j ;;
                          dst <- store dst j (Some (big_Int_value v)) ;;
                          store proofs i dst)
                       proofs)
                  proofs ;;
      let assignment :=
        {| Circuit.InputHash := Some (big_Int_value (InputHash params));
           Circuit.StartIndex := Some (uint32_value (StartIndex params));
           Circuit.PreRoot := Some (big_Int_value (PreRoot params));
           Circuit.PostRoot := Some (big_Int_value (PostRoot params));
           Circuit.IdComms := idComms;
           Circuit.MerkleProofs := proofs;
           Circuit.BatchSize := 0;
           Circuit.Depth := 0 |} in
      r <- call (frontend_NewWitness assignment false) ;;
      match r with
      | inr err => Ret (inr err)
      | inl witness =>
          _ <- call (Logger_Info "generating proof") ;;
          r <- call (groth16_Prove (ConstraintSystem ps) (ProvingKey ps) witness) ;;
          match r with
          | inr err => Ret (inr err)
          | inl proof =>
              _ <- call (Logger_Info "proof generated successfully") ;;
              Ret (inl {| Proof_ := proof |})
          end
      end
  end.

Definition Verify `{Extern} (ps : ProvingSystem) (inputHash : Z) (proof : prover_Proof)
  : prog (option error) :=
  let publicAssignment :=
    {| Circuit.InputHash := Some (big_Int_value inputHash);
       Circuit.StartIndex := None;
       Circuit.PreRoot := None;
       Circuit.PostRoot := None;
       Circuit.IdComms := make None (BatchSize ps);
       Circuit.MerkleProofs := [];
       Circuit.BatchSize := 0;
       Circuit.Depth := 0 |} in
  r <- call (frontend_NewWitness publicAssignment true) ;;
  match r with
  | inr err => Ret (Some err)
  | inl witness => call (groth16_Verify (Proof_ proof) (VerifyingKey ps) witness)
  end.

(** Filling a slice of [n] zero values from a list of [n] elements, one index
    at a time: the state after [k] steps. *)
Definition filled {T U} (f : T -> U) (zero : U) (src : list T) (k : nat) : list U :=
  map f (take k src) ++ replicate (length src - k) zero.

(** *** The assignments as the specification words them *)

(** The complete assignment: every field of the parameters, each value in its
    place. *)
Definition spec_assignment (params : Parameters) : MbuCircuit :=
  {| Circuit.InputHash := Some (big_Int_value (InputHash params));
     Circuit.StartIndex := Some (uint32_value (StartIndex params));
     Circuit.PreRoot := Some (big_Int_value (PreRoot params));
     Circuit.PostRoot := Some (big_Int_value (PostRoot params));
     Circuit.IdComms := map (fun v => Some (big_Int_value v)) (IdComms params);
     Circuit.MerkleProofs :=
       map (map (fun v => Some (big_Int_value v))) (MerkleProofs params);
     Circuit.BatchSize := 0;
     Circuit.Depth := 0 |}.

(** The values an assignment supplies, with the field each one sits in; a
    [nil] variable supplies nothing. *)
Definition supplied_values (a : MbuCircuit) : list (string * Value) :=
  let field (name : string) (vs : list frontend_Variable) :=
    map (fun v => (name, v)) (omap (fun v : frontend_Variable => v) vs) in
  field "InputHash" [Circuit.InputHash a]
  ++ field "StartIndex" [Circuit.StartIndex a]
  ++ field "PreRoot" [Circuit.PreRoot a]
  ++ field "PostRoot" [Circuit.PostRoot a]
  ++ field "IdComms" (Circuit.IdComms a)
  ++ field "MerkleProofs" (concat (Circuit.MerkleProofs a)).

(** ** [server/server.go] *)

(** [encoding/json] at the three types the server uses it at. Decoding a
    [prover.Parameters] and encoding a [Proof] go through methods that are not
    among the sources. *)
Class Json `{Extern} := {
  json_Unmarshal_Parameters : list byte -> Parameters + error;
  json_Marshal_Proof : prover_Proof -> list byte + error;
  json_Marshal_map : gmap string string -> list byte + error
}.

Definition StatusOK : Z := 200.
Definition StatusBadRequest : Z := 400.
Definition StatusMethodNotAllowed : Z := 405.
Definition StatusInternalServerError : Z := 500.
Definition MethodPost : string := "POST".

Record Error := {
  StatusCode : Z;
  Code : string;
  Message : string
}.

Definition malformedBodyError (err : error) : Error :=
  {| StatusCode := StatusBadRequest; Code := "malformed_body"; Message := err |}.

Definition provingError (err : error) : Error :=
  {| StatusCode := StatusBadRequest; Code := "proving_error"; Message := err |}.

Definition unexpectedError (err : error) : Error :=
  {| StatusCode := StatusInternalServerError; Code := "unexpected_error"; Message := err |}.

Definition MarshalJSON `{Json} (e : Error) : list byte + error :=
  json_Marshal_map (<["code" := Code e]> (<["message" := Message e]> ∅)).

Definition bytes_of_string (s : string) : list byte :=
  map (fun c => byte_of_Z (Z.of_N (Ascii.N_of_ascii c))) (String.list_ascii_of_string s).

(** The raw string literal that [send] falls back to. *)
Definition marshal_failure_body : list byte :=
  let q := String (Ascii.ascii_of_nat 34) EmptyString in
  bytes_of_string
    ("{" +:+ q +:+ "code" +:+ q +:+ ": " +:+ q +:+ "unexpected_error" +:+ q +:+ ", "
     +:+ q +:+ "message" +:+ q +:+ ": " +:+ q +:+ "failed to marshal error" +:+ q +:+ "}").

Definition send `{Json} (e : Error) : prog unit :=
  _ <- call (ResponseWriter_WriteHeader (StatusCode e)) ;;
  let jsonBytes :=
    match MarshalJSON e with
    | inl b => b
    | inr _ => marshal_failure_body
    end in
  r <- call (ResponseWriter_Write jsonBytes) ;;
  let '(length, err) := r in
  if not_nil err || negb (length =? len jsonBytes)
  then call (Logger_Error err "error writing response")
  else Ret tt.

Record Request `{Extern} := {
  Method : string;
  Body : io_ReadCloser
}.

Record proveHandler `{Extern} := { provingSystem : ProvingSystem }.

Definition ServeHTTP `{Json} (handler : proveHandler) (r : Request) : prog unit :=
  if negb (String.eqb (Method r) MethodPost)
  then call (ResponseWriter_WriteHeader StatusMethodNotAllowed)
  else
    _ <- call (Logger_Info "received prove request") ;;
    rd <- call (io_ReadAll (Body r)) ;;
    let '(buf, err) := rd in
    match err with
    | Some err => send (malformedBodyError err)
    | None =>
        match json_Unmarshal_Parameters buf with
        | inr err => send (malformedBodyError err)
        | inl params =>
            pr <- Prove (provingSystem handler) params ;;
            match pr with
            | inr err => send (provingError err)
            | inl proof =>
                match json_Marshal_Proof proof with
                | inr err => send (unexpectedError err)
                | inl responseBytes =>
                    _ <- call (ResponseWriter_WriteHeader StatusOK) ;;
                    _ <- call (ResponseWriter_Write responseBytes) ;;
                    Ret tt
                end
            end
        end
    end.

(** The response a trace of calls amounts to: the status of the first
    [WriteHeader] (or 200 when bytes are written before any), and the bytes
    handed to [Write], in order. *)
Definition event_status `{Extern} (e : Event) : option Z :=
  match e with
  | Ev c _ =>
      match c with
      | ResponseWriter_WriteHeader statusCode => Some statusCode
      | ResponseWriter_Write _ => Some StatusOK
      | _ => None
      end
  end.

Definition event_body `{Extern} (e : Event) : list byte :=
  match e with
  | Ev c _ =>
      match c with
      | ResponseWriter_Write b => b
      | _ => []
      end
  end.

Definition response_status `{Extern} (tr : list Event) : option Z :=
  head (omap event_status tr).

Definition response_body `{Extern} (tr : list Event) : list byte :=
  flat_map event_body tr.

(** The calls of a trace that reach the backend or read a request. *)
Definition is_backend_call `{Extern} (e : Event) : bool :=
  match e with
  | Ev c _ =>
      match c with
      | frontend_NewWitness _ _ | groth16_Prove _ _ _ | groth16_Verify _ _ _ => true
      | _ => false
      end
  end.

Definition is_body_read `{Extern} (e : Event) : bool :=
  match e with
  | Ev c _ =>
      match c with
      | io_ReadAll _ => true
      | _ => false
      end
  end.

(** The response body of the specification: the JSON encoding of the object
    with the members [code] and [message]. *)
Definition spec_error_body `{Json} (code message : string) (body : list byte) : Prop :=
  json_Marshal_map (<["code" := code]> (<["message" := message]> ∅)) = inl body.

(** ** A fake backend to run the programs on

    A witness is the list of the assigned values, public ones first; a proof
    made with key [k] for the public input [h] is the pair [(k, h)]. Reading a
    request body yields what the body holds; every call is counted. *)
Module Fake.

Definition value_of (v : Value) : Z :=
  match v with
  | big_Int_value x => x
  | uint32_value x => x
  end.

Definition leaves (a : MbuCircuit) : list frontend_Variable :=
  [Circuit.StartIndex a; Circuit.PreRoot a; Circuit.PostRoot a]
  ++ Circuit.IdComms a ++ concat (Circuit.MerkleProofs a).

Definition new_witness (a : MbuCircuit) (publicOnly : bool) : list Z + error :=
  match Circuit.InputHash a with
  | None => inr "missing assignment"
  | Some h =>
      if publicOnly then inl [value_of h]
      else
        match mapM (fun v : frontend_Variable => v) (leaves a) with
        | Some vs => inl (value_of h :: map value_of vs)
        | None => inr "missing assignment"
        end
  end.

#[export] Instance extern : Extern := {|
  groth16_Proof := Z * Z;
  groth16_ProvingKey := Z;
  groth16_VerifyingKey := Z;
  constraint_ConstraintSystem := unit;
  witness_Witness := list Z;
  io_ReadCloser := list byte * option error
|}.

Definition answer (X : Type) (c : Cmd X) : X :=
  match c in Cmd X return X with
  | frontend_NewWitness a publicOnly => new_witness a publicOnly
  | groth16_Prove _ pk w =>
      match w with
      | h :: _ => inl (pk, h)
      | [] => inr "empty witness"
      end
  | groth16_Verify proof vk w =>
      match w with
      | h :: _ =>
          if (proof.1 =? vk) && (proof.2 =? h) then None
          else Some "invalid proof"
      | [] => Some "empty witness"
      end
  | Logger_Info _ => tt
  | Logger_Error _ _ => tt
  | io_ReadAll r => r
  | ResponseWriter_WriteHeader _ => tt
  | ResponseWriter_Write b => (len b, None)
  end.

#[export] Instance handler : Handler := {|
  World := nat;
  handle X c w := (answer X c, S w)
|}.

(** A decoder and two encoders in the place of [encoding/json]: the first
    byte of a body is the start index and the input hash, every further byte one identity
    commitment with an empty Merkle proof. *)
Definition unmarshal (buf : list byte) : Parameters + error :=
  match buf with
  | [] => inr "unexpected end of JSON input"
  | b :: rest =>
      inl {| InputHash := Z_of_byte b;
             StartIndex := Z_of_byte b;
             PreRoot := 0;
             PostRoot := 0;
             IdComms := map Z_of_byte rest;
             MerkleProofs := map (fun _ => []) rest |}
  end.

Definition marshal_proof (proof : prover_Proof) : list byte + error :=
  if (Proof_ proof).2 =? 0 then inr "unsupported value"
  else inl (big_Int_Bytes (Proof_ proof).1 ++ big_Int_Bytes (Proof_ proof).2).

Definition marshal_map (m : gmap string string) : list byte + error :=
  inl (flat_map (fun kv => bytes_of_string (kv.1 +:+ "=" +:+ kv.2 +:+ ";"))
         (map_to_list m)).

#[export] Instance json : Json := {|
  json_Unmarshal_Parameters := unmarshal;
  json_Marshal_Proof := marshal_proof;
  json_Marshal_map := marshal_map
|}.

Definition system (treeDepth batchSize key : Z) : ProvingSystem :=
  {| TreeDepth := treeDepth;
     BatchSize := batchSize;
     ProvingKey := key;
     VerifyingKey := key;
     ConstraintSystem := tt |}.

Definition proof (key inputHash : Z) : prover_Proof := {| Proof_ := (key, inputHash) |}.

Definition request (method : string) (body : list byte) : Request :=
  {| Method := method; Body := (body, None) |}.

End Fake.

(** ** Sample inputs *)

(** Depth 2, batch size 2; the first commitment takes 30 bytes, the second 32. *)
Definition sample_params : Parameters :=
  {| InputHash := 0;
     StartIndex := 258;
     PreRoot := 5;
     PostRoot := 65536;
     IdComms := [2 ^ 232 + 1; 2 ^ 255 + 3];
     MerkleProofs := [[11; 12]; [21; 22]] |}.

(** The same batch with another stored hash and other Merkle proofs. *)
Definition sample_params' : Parameters :=
  {| InputHash := 99;
     StartIndex := 258;
     PreRoot := 5;
     PostRoot := 65536;
     IdComms := [2 ^ 232 + 1; 2 ^ 255 + 3];
     MerkleProofs := [[1]] |}.

(** ** The rest of [prover/proving_system.go] *)

(** [b[i]]: [None] stands for the run-time panic outside the slice. *)
Definition at_index (b : list byte) (i : Z) : option byte :=
  if i <? 0 then None else b !! Z.to_nat i.

(** The loop of [toBytesLE] from index [i] on, [count] rounds: the tuple
    assignment reads [b[len(b)-i-1]] and [b[i]] and then stores them
    crosswise. The slice is changed in place; the list is its content. *)
Fixpoint toBytesLE_loop (count : nat) (i : Z) (b : list byte) : option (list byte) :=
  match count with
  | O => Some b
  | S count' =>
      match at_index b (len b - i - 1), at_index b i with
      | Some hi, Some lo =>
          toBytesLE_loop count' (i + 1)
            (<[Z.to_nat (len b - i - 1) := lo]> (<[Z.to_nat i := hi]> b))
      | _, _ => None
      end
  end.

Definition toBytesLE (b : list byte) : option (list byte) :=
  toBytesLE_loop (Z.to_nat (len b / 2)) 0 b.

(** The value of a little-endian byte string. *)
Definition le_value (bs : list byte) : Z :=
  fold_right (fun b acc => Z_of_byte b + 256 * acc) 0 bs.

(** [frontend.Compile] and [groth16.Setup], answered over the same outside
    world as the calls of [Cmd]. *)
Class SetupBackend `{Handler} := {
  frontend_Compile : MbuCircuit -> World -> (constraint_ConstraintSystem + error) * World;
  groth16_Setup :
    constraint_ConstraintSystem -> World ->
    (groth16_ProvingKey * groth16_VerifyingKey + error) * World
}.

(** The circuit that [BuildR1CS] hands to the compiler. *)
Definition BuildR1CS_circuit `{Extern} (treeDepth batchSize : Z) : prog MbuCircuit :=
  let proofs := make ([] : list frontend_Variable) batchSize in
  proofs <- for_loop (Z.to_nat batchSize) 0
              (fun i proofs => store proofs i (make None treeDepth))
              proofs ;;
  Ret {| Circuit.InputHash := None;
         Circuit.StartIndex := None;
         Circuit.PreRoot := None;
         Circuit.PostRoot := None;
         Circuit.IdComms := make None batchSize;
         Circuit.MerkleProofs := proofs;
         Circuit.BatchSize := batchSize;
         Circuit.Depth := treeDepth |}.

Definition BuildR1CS `{SetupBackend} (treeDepth batchSize : Z) (w : World)
  : outcome (constraint_ConstraintSystem + error) * World :=
  let '(r, _, w0) := run (BuildR1CS_circuit treeDepth batchSize) w in
  match r with
  | Panicked msg => (Panicked msg, w0)
  | Returned circuit =>
      let '(ccs, w1) := frontend_Compile circuit w0 in (Returned ccs, w1)
  end.

Definition Setup `{SetupBackend} (treeDepth batchSize : Z) (w : World)
  : outcome (ProvingSystem + error) * World :=
  let '(r, w1) := BuildR1CS treeDepth batchSize w in
  match r with
  | Panicked msg => (Panicked msg, w1)
  | Returned (inr err) => (Returned (inr err), w1)
  | Returned (inl ccs) =>
      let '(keys, w2) := groth16_Setup ccs w1 in
      match keys with
      | inr err => (Returned (inr err), w2)
      | inl (pk, vk) =>
          (Returned (inl {| TreeDepth := treeDepth;
                            BatchSize := batchSize;
                            ProvingKey := pk;
                            VerifyingKey := vk;
                            ConstraintSystem := ccs |}), w2)
      end
  end.

(** ** Reading traces *)

(** The function a call goes to. *)
Definition call_name `{Extern} (e : Event) : string :=
  match e with
  | Ev c _ =>
      match c with
      | frontend_NewWitness _ _ => "frontend.NewWitness"
      | groth16_Prove _ _ _ => "groth16.Prove"
      | groth16_Verify _ _ _ => "groth16.Verify"
      | Logger_Info _ => "Logger.Info"
      | Logger_Error _ _ => "Logger.Error"
      | io_ReadAll _ => "io.ReadAll"
      | ResponseWriter_WriteHeader _ => "WriteHeader"
      | ResponseWriter_Write _ => "Write"
      end
  end.

Definition call_names `{Extern} (tr : list Event) : list string := map call_name tr.

(** A run that comes after the calls [tr0]. *)
Definition after `{Handler} {A} (tr0 : list Event) (x : outcome A * list Event * World)
  : outcome A * list Event * World :=
  (x.1.1, tr0 ++ x.1.2, x.2).

(** How often a trace calls the function [name]. *)
Definition count_calls `{Extern} (name : string) (tr : list Event) : nat :=
  length (List.filter (fun n => String.eqb n name) (call_names tr)).

(** What the logger was told, in order. *)
Definition event_log `{Extern} (e : Event) : list string :=
  match e with
  | Ev c _ =>
      match c with
      | Logger_Info msg => [msg]
      | Logger_Error _ msg => [msg]
      | _ => []
      end
  end.

Definition log_of `{Extern} (tr : list Event) : list string := flat_map event_log tr.

(** ** More of the fake backend: a compiler that refuses an empty batch, a
    setup that hands out the key 7, and a response writer that fails. *)
Module FakeSetup.
Definition compile (circuit : MbuCircuit) (w : nat) : (unit + error) * nat :=
  (if Circuit.BatchSize circuit =? 0 then inr "empty circuit"%string else inl tt, S w).

Definition setup (ccs : unit) (w : nat) : (Z * Z + error) * nat := (inl (7, 7), S w).

#[export] Instance backend : @SetupBackend Fake.extern Fake.handler :=
  @Build_SetupBackend Fake.extern Fake.handler compile setup.
End FakeSetup.

Module BrokenWriter.
Definition answer (X : Type) (c : Cmd X) : X :=
  match c in Cmd X return X with
  | ResponseWriter_Write b => (0, Some "broken pipe"%string)
  | c => Fake.answer _ c
  end.

#[export] Instance handler : @Handler Fake.extern := {|
  World := nat;
  handle X c w := (answer X c, S w)
|}.

(** An encoder of string maps that always fails. *)
#[export] Instance json : @Json Fake.extern := {|
  json_Unmarshal_Parameters := Fake.unmarshal;
  json_Marshal_Proof := Fake.marshal_proof;
  json_Marshal_map := fun _ => inr "unsupported type"%string
|}.
End BrokenWriter.

(** The sample batch with the signs of a root and of a commitment changed. *)
Definition sample_params_negated : Parameters :=
  {| InputHash := 0;
     StartIndex := 258;
     PreRoot := -5;
     PostRoot := 65536;
     IdComms := [- (2 ^ 232 + 1); 2 ^ 255 + 3];
     MerkleProofs := [[11; 12]; [21; 22]] |}.

(** The parameters [p] with the bytes of both roots put into [PreRoot]. *)
Definition roots_merged (p : Parameters) : Parameters :=
  {| InputHash := InputHash p;
     StartIndex := StartIndex p;
     PreRoot := Z.abs (PreRoot p) * 256 ^ len (big_Int_Bytes (PostRoot p))
                + Z.abs (PostRoot p);
     PostRoot := 0;
     IdComms := IdComms p;
     MerkleProofs := MerkleProofs p |}.

(** A handler over the fake proving system of depth 0 and batch size 2, a
    request with two commitments and one with a single commitment. *)
Definition sample_handler : @proveHandler Fake.extern :=
  {| provingSystem := Fake.system 0 2 7 |}.

Definition sample_request : @Request Fake.extern := Fake.request "POST" [x09; x01; x02].

Definition sample_request_short : @Request Fake.extern := Fake.request "POST" [x09; x01].

(** * Properties *)

(** ** Bytes and big-endian strings *)

Lemma Z_of_byte_range (b : byte) : 0 <= Z_of_byte b < 256.
Proof.
  unfold Z_of_byte. pose proof (Byte.to_N_bounded b). lia.
Qed.

Lemma Z_of_byte_of_Z (v : Z) : Z_of_byte (byte_of_Z v) = v mod 256.
Proof.
  unfold Z_of_byte, byte_of_Z.
  pose proof (Z.mod_pos_bound v 256 ltac:(lia)) as Hr.
  destruct (Byte.of_N (Z.to_N (v mod 256))) as [b|] eqn:E.
  - apply Byte.to_of_N in E. rewrite E. lia.
  - apply Byte.of_N_None_iff in E. lia.
Qed.

Lemma byte_of_Z_of_byte (b : byte) : byte_of_Z (Z_of_byte b) = b.
Proof.
  unfold Z_of_byte, byte_of_Z.
  pose proof (Byte.to_N_bounded b).
  rewrite Z.mod_small by lia.
  rewrite N2Z.id, Byte.of_to_N. reflexivity.
Qed.

Lemma byte_of_Z_eq (u v : Z) : u mod 256 = v mod 256 -> byte_of_Z u = byte_of_Z v.
Proof. unfold byte_of_Z. intros ->. reflexivity. Qed.

Lemma len_app {A} (l k : list A) : len (l ++ k) = len l + len k.
Proof. unfold len. rewrite length_app. lia. Qed.

Lemma len_nonneg {A} (l : list A) : 0 <= len l.
Proof. unfold len. lia. Qed.

Lemma be_value_from (bs : list byte) (acc : Z) :
  fold_left (fun acc b => acc * 256 + Z_of_byte b) bs acc
  = acc * 256 ^ len bs + be_value bs.
Proof.
  unfold be_value. revert acc.
  induction bs as [|b bs IH]; intros acc; simpl.
  - unfold len. simpl. lia.
  - rewrite IH, (IH (0 * 256 + Z_of_byte b)).
    replace (len (b :: bs)) with (Z.succ (len bs)) by (unfold len; simpl; lia).
    rewrite Z.pow_succ_r by apply len_nonneg. lia.
Qed.

Lemma be_value_cons (b : byte) (bs : list byte) :
  be_value (b :: bs) = Z_of_byte b * 256 ^ len bs + be_value bs.
Proof. unfold be_value at 1. simpl. apply be_value_from. Qed.

Lemma be_value_app (l k : list byte) :
  be_value (l ++ k) = be_value l * 256 ^ len k + be_value k.
Proof.
  unfold be_value at 1. rewrite fold_left_app.
  fold (be_value l). apply be_value_from.
Qed.

Lemma be_value_range (bs : list byte) : 0 <= be_value bs < 256 ^ len bs.
Proof.
  induction bs as [|b bs IH].
  - unfold be_value, len. simpl. lia.
  - rewrite be_value_cons.
    replace (len (b :: bs)) with (Z.succ (len bs)) by (unfold len; simpl; lia).
    rewrite Z.pow_succ_r by apply len_nonneg.
    pose proof (Z_of_byte_range b). nia.
Qed.

Lemma be_value_zeros (n : nat) (bs : list byte) :
  be_value (replicate n x00 ++ bs) = be_value bs.
Proof.
  induction n as [|n IH]; simpl; [reflexivity|].
  rewrite be_value_cons, IH. reflexivity.
Qed.

Lemma spec_byte_length_step (v : Z) :
  0 < v -> spec_byte_length v = S (spec_byte_length (v / 256)).
Proof.
  intros Hv. unfold spec_byte_length.
  destruct (Z.eqb_spec v 0) as [?|_]; [lia|].
  rewrite (Z.abs_eq v) by lia.
  assert (Hq : 0 <= v / 256) by (apply Z.div_pos; lia).
  destruct (Z.eqb_spec (v / 256) 0) as [E|E].
  - assert (v < 2 ^ 8) as Hlt
        by (change (2 ^ 8) with 256; apply Z.div_small_iff in E; lia).
    apply Z.log2_lt_pow2 in Hlt; [|lia].
    pose proof (Z.log2_nonneg v).
    rewrite Z.div_small by lia. reflexivity.
  - rewrite (Z.abs_eq (v / 256)) by lia.
    change 256 with (2 ^ 8) at 1. rewrite <- Z.shiftr_div_pow2 by lia.
    rewrite Z.log2_shiftr by lia.
    assert (2 ^ 8 <= v) as Hge.
    { change (2 ^ 8) with 256.
      destruct (Z_lt_le_dec v 256) as [Hlt|]; [|lia].
      rewrite Z.div_small in E by lia. lia. }
    apply Z.log2_le_pow2 in Hge; [|lia].
    rewrite Z.max_r by lia.
    assert (Z.log2 v / 8 = (Z.log2 v - 8) / 8 + 1) as ->.
    { rewrite <- Z.div_add by lia. f_equal. lia. }
    assert (0 <= (Z.log2 v - 8) / 8) by (apply Z.div_pos; lia).
    rewrite <- Z2Nat.inj_succ by lia. f_equal.
Qed.

Lemma le_digits_spec (fuel : nat) (v : Z) :
  0 <= v < 256 ^ Z.of_nat fuel ->
  le_digits fuel v
  = map (fun i => byte_of_Z (v / 256 ^ Z.of_nat i)) (seq 0 (spec_byte_length v)).
Proof.
  revert v. induction fuel as [|fuel IH]; intros v Hv.
  - simpl in Hv. assert (v = 0) as -> by lia. reflexivity.
  - cbn [le_digits]. destruct (Z.leb_spec v 0) as [Hle|Hpos].
    + assert (v = 0) as -> by lia. reflexivity.
    + rewrite spec_byte_length_step by lia.
      cbn [seq map]. f_equal.
      * change (256 ^ Z.of_nat 0) with 1. rewrite Z.div_1_r. reflexivity.
      * rewrite <- seq_shift, map_map, IH.
        -- apply map_ext. intros i. f_equal.
           rewrite Z.div_div by lia. f_equal.
           rewrite Nat2Z.inj_succ, Z.pow_succ_r by lia. reflexivity.
        -- rewrite Nat2Z.inj_succ, Z.pow_succ_r in Hv by lia.
           split; [apply Z.div_pos; lia|].
           apply Z.div_lt_upper_bound; lia.
Qed.

Lemma rev_map_seq {A} (f : nat -> A) (n : nat) :
  rev (map f (seq 0 n)) = map (fun i => f (n - 1 - i)%nat) (seq 0 n).
Proof.
  induction n as [|n IH]; [reflexivity|].
  replace (map (fun i => f (S n - 1 - i)%nat) (seq 0 (S n)))
    with (f n :: map (fun i => f (n - 1 - i)%nat) (seq 0 n)).
  - rewrite seq_S, map_app, rev_app_distr. cbn [map rev app].
    rewrite IH. reflexivity.
  - cbn [seq map]. f_equal; [f_equal; lia|].
    rewrite <- seq_shift, map_map. apply map_ext. intros i. f_equal. lia.
Qed.

Lemma spec_be_fixed_S (n : nat) (v : Z) :
  spec_be_fixed (S n) v = byte_of_Z (v / 256 ^ Z.of_nat n) :: spec_be_fixed n v.
Proof.
  unfold spec_be_fixed. cbn [seq map]. f_equal.
  - do 3 f_equal. lia.
  - rewrite <- seq_shift, map_map. apply map_ext. intros i. do 4 f_equal. lia.
Qed.

Lemma spec_be_fixed_length (n : nat) (v : Z) : length (spec_be_fixed n v) = n.
Proof. unfold spec_be_fixed. rewrite length_map, length_seq. reflexivity. Qed.

Lemma spec_be_fixed_value (n : nat) (v : Z) :
  be_value (spec_be_fixed n v) = v mod 256 ^ Z.of_nat n.
Proof.
  induction n as [|n IH].
  - unfold spec_be_fixed, be_value. simpl. rewrite Z.mod_1_r. reflexivity.
  - rewrite spec_be_fixed_S, be_value_cons, IH, Z_of_byte_of_Z.
    unfold len. rewrite spec_be_fixed_length.
    rewrite Nat2Z.inj_succ, Z.pow_succ_r by lia.
    rewrite (Z.mul_comm 256). rewrite Z.rem_mul_r by lia. lia.
Qed.

(** The byte count of [spec_byte_length] is enough, and one byte fewer is not. *)
Lemma spec_byte_length_bounds (v : Z) :
  Z.abs v < 256 ^ Z.of_nat (spec_byte_length v)
  /\ (v <> 0 -> 256 ^ (Z.of_nat (spec_byte_length v) - 1) <= Z.abs v).
Proof.
  unfold spec_byte_length. destruct (Z.eqb_spec v 0) as [->|Hne].
  - simpl. split; [lia | congruence].
  - assert (0 < Z.abs v) as Hpos by lia.
    pose proof (Z.log2_spec _ Hpos) as [Hlo Hhi].
    pose proof (Z.log2_nonneg (Z.abs v)) as Hl.
    set (l := Z.log2 (Z.abs v)) in *.
    assert (0 <= l / 8) by (apply Z.div_pos; lia).
    rewrite Z2Nat.id by lia.
    pose proof (Z.div_mod l 8 ltac:(lia)) as Hdm.
    pose proof (Z.mod_pos_bound l 8 ltac:(lia)) as Hm.
    change 256 with (2 ^ 8). rewrite <- !Z.pow_mul_r by lia.
    split.
    + eapply Z.lt_le_trans; [exact Hhi|].
      apply Z.pow_le_mono_r; lia.
    + intros _. eapply Z.le_trans; [|exact Hlo].
      apply Z.pow_le_mono_r; lia.
Qed.

(** [big.Int.Bytes] yields the minimal big-endian representation. *)
Lemma big_Int_Bytes_spec (x : Z) : big_Int_Bytes x = spec_minimal_be x.
Proof.
  unfold big_Int_Bytes, spec_minimal_be.
  assert (spec_byte_length (Z.abs x) = spec_byte_length x) as Hlen.
  { unfold spec_byte_length. rewrite Z.abs_idemp.
    destruct (Z.eqb_spec x 0), (Z.eqb_spec (Z.abs x) 0); try reflexivity; lia. }
  rewrite le_digits_spec, rev_map_seq, Hlen; [reflexivity|].
  split; [lia|].
  destruct (Z.eq_dec x 0) as [->|Hne].
  - simpl. lia.
  - assert (0 < Z.abs x) as Hpos by lia.
    pose proof (Z.log2_spec _ Hpos) as [_ Hhi].
    pose proof (Z.log2_nonneg (Z.abs x)).
    rewrite Nat2Z.inj_succ, Z2Nat.id by lia.
    eapply Z.lt_le_trans; [exact Hhi|].
    apply Z.pow_le_mono_l. lia.
Qed.

Lemma spec_minimal_be_value (v : Z) : be_value (spec_minimal_be v) = Z.abs v.
Proof.
  unfold spec_minimal_be. rewrite spec_be_fixed_value.
  pose proof (spec_byte_length_bounds v) as [Hlt _].
  apply Z.mod_small. lia.
Qed.

Lemma spec_minimal_be_shortest (v : Z) (bs : list byte) :
  be_value bs = Z.abs v -> (length (spec_minimal_be v) <= length bs)%nat.
Proof.
  intros Hbs. unfold spec_minimal_be. rewrite spec_be_fixed_length.
  destruct (Z.eq_dec v 0) as [->|Hne]; [cbn; lia|].
  pose proof (spec_byte_length_bounds v) as [_ Hlo]. specialize (Hlo Hne).
  pose proof (be_value_range bs) as [_ Hhi]. rewrite Hbs in Hhi. unfold len in Hhi.
  assert (256 ^ (Z.of_nat (spec_byte_length v) - 1) < 256 ^ Z.of_nat (length bs)) as Hlt by lia.
  apply Z.pow_lt_mono_r_iff in Hlt; lia.
Qed.

(** ** The digest of Keccak-256 has 32 bytes *)

Lemma Keccak_round_length (st : list Z) (rc : Z) : length (Keccak.round st rc) = 25%nat.
Proof. reflexivity. Qed.

Lemma Keccak_rounds_length (rcs : list Z) (st : list Z) :
  rcs <> [] -> length (fold_left Keccak.round rcs st) = 25%nat.
Proof.
  revert st. induction rcs as [|rc rcs IH]; intros st Hne; [congruence|].
  destruct rcs as [|rc' rcs].
  - apply Keccak_round_length.
  - apply (IH (Keccak.round st rc)). discriminate.
Qed.

Lemma Keccak_absorb_length (st : list Z) (block : list byte) :
  length (Keccak.absorb st block) = 25%nat.
Proof. unfold Keccak.absorb, Keccak.keccak_f. apply Keccak_rounds_length. discriminate. Qed.

Lemma Keccak_absorb_all_length (blocks : list (list byte)) (st : list Z) :
  length st = 25%nat -> length (fold_left Keccak.absorb blocks st) = 25%nat.
Proof.
  revert st. induction blocks as [|b blocks IH]; intros st Hst; [exact Hst|].
  apply IH, Keccak_absorb_length.
Qed.

Lemma Keccak_bytes_of_lane_length (n : nat) (v : Z) :
  length (Keccak.bytes_of_lane n v) = n.
Proof. revert v. induction n as [|n IH]; intros v; simpl; [|rewrite IH]; reflexivity. Qed.

Lemma keccak256_Hash_length (data : list byte) : length (keccak256_Hash data) = 32%nat.
Proof.
  unfold keccak256_Hash, Keccak.Hash.
  set (st := fold_left _ _ _).
  assert (length st = 25%nat) as Hst by (apply Keccak_absorb_all_length; reflexivity).
  rewrite length_take.
  assert (forall l : list Z, length (flat_map (Keccak.bytes_of_lane 8) l) = (8 * length l)%nat) as Hfl.
  { induction l as [|a l IHl]; [reflexivity|].
    cbn [flat_map]. rewrite length_app, IHl, Keccak_bytes_of_lane_length. simpl. lia. }
  rewrite Hfl, Hst. reflexivity.
Qed.

(** ** [ComputeInputHash] against the encoding of the specification *)

Lemma BigEndian_PutUint32_spec (v : Z) : BigEndian_PutUint32 v = spec_be_fixed 4 v.
Proof.
  unfold BigEndian_PutUint32, spec_be_fixed. cbn [seq map].
  rewrite !Z.shiftr_div_pow2 by lia.
  repeat f_equal. rewrite Z.div_1_r. reflexivity.
Qed.

Lemma spec_pad_left_length (n : nat) (bs : list byte) :
  (length bs <= n)%nat -> length (spec_pad_left n bs) = n.
Proof.
  intros Hle. unfold spec_pad_left. rewrite length_app, length_replicate. lia.
Qed.

Lemma spec_pad_left_value (n : nat) (bs : list byte) :
  be_value (spec_pad_left n bs) = be_value bs.
Proof. apply be_value_zeros. Qed.

Lemma idComm_bytes_spec (v : Z) : idComm_bytes v = spec_pad_left 32 (spec_minimal_be v).
Proof.
  unfold idComm_bytes, spec_pad_left, make_bytes, len.
  rewrite big_Int_Bytes_spec.
  destruct (Z.ltb_spec (Z.of_nat (length (spec_minimal_be v))) 32) as [Hlt|Hge].
  - f_equal. f_equal. lia.
  - replace (32 - length (spec_minimal_be v))%nat with 0%nat by lia. reflexivity.
Qed.

Lemma fold_left_append {A B} (f : A -> list B) (l : list A) (init : list B) :
  fold_left (fun data v => data ++ f v) l init = init ++ concat (map f l).
Proof.
  revert init. induction l as [|a l IH]; intros init; simpl.
  - rewrite app_nil_r. reflexivity.
  - rewrite IH, <- app_assoc. reflexivity.
Qed.

Lemma ComputeInputHash_data_spec (p : Parameters) :
  ComputeInputHash_data p = inl (spec_encoding p).
Proof.
  unfold ComputeInputHash_data, spec_encoding.
  unfold binary_Write_uint32, io_Write, bytes_Buffer_Writer, bytes_Buffer_new,
    bytes_Buffer_Bytes.
  cbn [buffer_contents app].
  rewrite fold_left_append, BigEndian_PutUint32_spec, !big_Int_Bytes_spec.
  rewrite (map_ext _ _ idComm_bytes_spec).
  rewrite <- !app_assoc. reflexivity.
Qed.

Lemma ComputeInputHash_spec (p : Parameters) :
  ComputeInputHash p = (None, set_InputHash (spec_input_hash p) p).
Proof. unfold ComputeInputHash. rewrite ComputeInputHash_data_spec. reflexivity. Qed.

(** C1. For parameters whose identity commitments each take at most 32 bytes
    in their minimal big-endian form, [ComputeInputHash] hashes with Keccak-256
    exactly the concatenation of the 4-byte big-endian start index, the minimal
    big-endian bytes of [PreRoot] and of [PostRoot], and every commitment in
    order, zero-padded on the left to exactly 32 bytes; the digest has 32
    bytes, and read as a big-endian unsigned integer it is the input hash the
    call stores. A commitment of 30 bytes contributes two zero bytes and then
    its 30 bytes; one of 32 bytes contributes its bytes unchanged. *)
Theorem ComputeInputHash_encoding (p : Parameters) :
  Forall (fun v => (length (spec_minimal_be v) <= 32)%nat) (IdComms p) ->
  ComputeInputHash_data p = inl (spec_encoding p)
  /\ InputHash (ComputeInputHash p).2 = be_value (keccak256_Hash (spec_encoding p))
  /\ length (keccak256_Hash (spec_encoding p)) = 32%nat
  /\ Forall (fun v => length (spec_pad_left 32 (spec_minimal_be v)) = 32%nat
                      /\ be_value (spec_pad_left 32 (spec_minimal_be v)) = Z.abs v)
       (IdComms p)
  /\ (forall v, length (spec_minimal_be v) = 30%nat ->
        idComm_bytes v = [x00; x00] ++ spec_minimal_be v)
  /\ (forall v, length (spec_minimal_be v) = 32%nat ->
        idComm_bytes v = spec_minimal_be v).
Proof.
  intros Hshort. repeat split.
  - apply ComputeInputHash_data_spec.
  - rewrite ComputeInputHash_spec. reflexivity.
  - apply keccak256_Hash_length.
  - eapply Forall_impl; [exact Hshort|]. intros v Hv. split.
    + apply spec_pad_left_length, Hv.
    + rewrite spec_pad_left_value. apply spec_minimal_be_value.
  - intros v Hv. rewrite idComm_bytes_spec. unfold spec_pad_left. rewrite Hv. reflexivity.
  - intros v Hv. rewrite idComm_bytes_spec. unfold spec_pad_left. rewrite Hv. reflexivity.
Qed.

Lemma ComputeInputHash_encoding_witness :
  Forall (fun v => (length (spec_minimal_be v) <= 32)%nat) (IdComms sample_params)
  /\ InputHash (ComputeInputHash sample_params).2
     = be_value (keccak256_Hash (spec_encoding sample_params)).
Proof.
  assert (Forall (fun v => (length (spec_minimal_be v) <= 32)%nat) (IdComms sample_params))
    as Hshort.
  { repeat (apply Forall_cons_2; [vm_compute; lia|]). apply Forall_nil_2. }
  split; [exact Hshort|].
  exact (proj1 (proj2 (ComputeInputHash_encoding sample_params Hshort))).
Defined.

(** C6. [ComputeInputHash] is a function of [StartIndex], [PreRoot],
    [PostRoot] and [IdComms] alone: two parameter bundles that agree on these
    get the same input hash and the same (nil) error, whatever their stored
    hash and Merkle proofs; and the call does nothing but store that hash in
    the receiver. *)
Theorem ComputeInputHash_deterministic (p q : Parameters) :
  StartIndex p = StartIndex q ->
  PreRoot p = PreRoot q ->
  PostRoot p = PostRoot q ->
  IdComms p = IdComms q ->
  InputHash (ComputeInputHash p).2 = InputHash (ComputeInputHash q).2
  /\ (ComputeInputHash p).1 = (ComputeInputHash q).1
  /\ (ComputeInputHash p).2 = set_InputHash (InputHash (ComputeInputHash p).2) p
  /\ (ComputeInputHash q).2 = set_InputHash (InputHash (ComputeInputHash q).2) q.
Proof.
  intros Hs Hpre Hpost Hids.
  rewrite !ComputeInputHash_spec. cbn [fst snd set_InputHash InputHash].
  repeat split.
  unfold spec_input_hash, spec_encoding. rewrite Hs, Hpre, Hpost, Hids. reflexivity.
Qed.

Lemma ComputeInputHash_deterministic_witness :
  InputHash sample_params <> InputHash sample_params'
  /\ MerkleProofs sample_params <> MerkleProofs sample_params'
  /\ InputHash (ComputeInputHash sample_params).2
     = InputHash (ComputeInputHash sample_params').2.
Proof.
  split; [discriminate|]. split; [discriminate|].
  exact (proj1 (ComputeInputHash_deterministic sample_params sample_params'
                  eq_refl eq_refl eq_refl eq_refl)).
Defined.

(** C9. [ComputeInputHash] returns a nil error for every receiver: the one
    place an error could come from is [binary.Write] on a [bytes.Buffer], and
    that write never reports one. *)
Theorem ComputeInputHash_never_fails (p : Parameters) :
  (ComputeInputHash p).1 = None
  /\ (forall (buf : bytes_Buffer) (v : Z), (binary_Write_uint32 buf v).2 = None)
  /\ (forall e, ComputeInputHash_data p <> inr e).
Proof.
  split; [|split].
  - rewrite ComputeInputHash_spec. reflexivity.
  - intros buf v. reflexivity.
  - intros e. rewrite ComputeInputHash_data_spec. discriminate.
Qed.

(** C10. [ComputeInputHash] stores the digest of the encoded data, read as a
    big-endian integer, in the receiver's [InputHash] and changes no other
    field. *)
Theorem ComputeInputHash_frame (p : Parameters) :
  exists data,
    ComputeInputHash_data p = inl data
    /\ InputHash (ComputeInputHash p).2 = big_Int_SetBytes (keccak256_Hash data)
    /\ StartIndex (ComputeInputHash p).2 = StartIndex p
    /\ PreRoot (ComputeInputHash p).2 = PreRoot p
    /\ PostRoot (ComputeInputHash p).2 = PostRoot p
    /\ IdComms (ComputeInputHash p).2 = IdComms p
    /\ MerkleProofs (ComputeInputHash p).2 = MerkleProofs p.
Proof.
  exists (spec_encoding p). rewrite ComputeInputHash_spec.
  split; [apply ComputeInputHash_data_spec|]. repeat split.
Qed.

(** ** [ValidateShape] *)

Lemma ValidateShape_proofs_None (i : Z) (proofs : list (list Z)) (treeDepth : Z) :
  (forall k proof, proofs !! k = Some proof -> len proof = treeDepth) ->
  ValidateShape_proofs i proofs treeDepth = None.
Proof.
  revert i. induction proofs as [|proof rest IH]; intros i Hall; [reflexivity|].
  cbn [ValidateShape_proofs].
  rewrite (Hall 0%nat proof eq_refl), Z.eqb_refl. cbn [negb].
  apply IH. intros k proof' Hk. exact (Hall (S k) proof' Hk).
Qed.

Lemma ValidateShape_proofs_None_inv (i : Z) (proofs : list (list Z)) (treeDepth : Z) :
  ValidateShape_proofs i proofs treeDepth = None ->
  forall k proof, proofs !! k = Some proof -> len proof = treeDepth.
Proof.
  revert i. induction proofs as [|first rest IH]; intros i Hnone k proof Hk.
  - discriminate Hk.
  - cbn [ValidateShape_proofs] in Hnone.
    destruct (Z.eqb_spec (len first) treeDepth) as [Heq|Hne]; cbn [negb] in Hnone;
      [|discriminate Hnone].
    destruct k as [|k].
    + injection Hk as <-. exact Heq.
    + exact (IH _ Hnone k proof Hk).
Qed.

Lemma ValidateShape_proofs_first (i : Z) (proofs : list (list Z)) (treeDepth : Z)
    (k : nat) (proof : list Z) :
  proofs !! k = Some proof ->
  len proof <> treeDepth ->
  (forall j proof', (j < k)%nat -> proofs !! j = Some proof' -> len proof' = treeDepth) ->
  ValidateShape_proofs i proofs treeDepth
  = Some ("wrong size of merkle proof for proof " +:+ pretty (i + Z.of_nat k) +:+ ": "
          +:+ pretty (len proof)).
Proof.
  revert i k. induction proofs as [|first rest IH]; intros i k Hk Hbad Hbefore.
  - discriminate Hk.
  - cbn [ValidateShape_proofs]. destruct k as [|k].
    + injection Hk as ->.
      destruct (Z.eqb_spec (len proof) treeDepth) as [?|_]; [contradiction|].
      cbn [negb]. rewrite Z.add_0_r. reflexivity.
    + rewrite (Hbefore 0%nat first ltac:(lia) eq_refl), Z.eqb_refl. cbn [negb].
      rewrite (IH (i + 1) k Hk Hbad).
      * do 4 f_equal. lia.
      * intros j proof' Hj Hlook. apply (Hbefore (S j) proof'); [lia | exact Hlook].
Qed.

Lemma ValidateShape_proofs_Some (i : Z) (proofs : list (list Z)) (treeDepth : Z) (e : error) :
  ValidateShape_proofs i proofs treeDepth = Some e ->
  exists k proof, proofs !! k = Some proof /\ len proof <> treeDepth.
Proof.
  revert i. induction proofs as [|first rest IH]; intros i He; [discriminate He|].
  cbn [ValidateShape_proofs] in He.
  destruct (Z.eqb_spec (len first) treeDepth) as [Heq|Hne]; cbn [negb] in He.
  - destruct (IH _ He) as (k & proof & Hk & Hbad). exists (S k), proof. split; assumption.
  - exists 0%nat, first. split; [reflexivity | assumption].
Qed.

Lemma ValidateShape_None_inv (p : Parameters) (treeDepth batchSize : Z) :
  ValidateShape p treeDepth batchSize = None ->
  len (IdComms p) = batchSize
  /\ len (MerkleProofs p) = batchSize
  /\ forall k row, MerkleProofs p !! k = Some row -> len row = treeDepth.
Proof.
  unfold ValidateShape. intros Hnone.
  destruct (Z.eqb_spec (len (IdComms p)) batchSize) as [Hids|_]; cbn [negb] in Hnone;
    [|discriminate Hnone].
  destruct (Z.eqb_spec (len (MerkleProofs p)) batchSize) as [Hmps|_]; cbn [negb] in Hnone;
    [|discriminate Hnone].
  repeat split; [assumption..|].
  exact (ValidateShape_proofs_None_inv _ _ _ Hnone).
Qed.

(** C3. [ValidateShape] fails exactly when the number of identity commitments
    differs from the batch size, or the number of Merkle proofs does, or some
    Merkle proof has a length other than the tree depth. The checks come in
    this order and the first one violated gives the error; for a Merkle proof
    it is the first offending index, and the message carries that index and
    the length found. With all checks passed the result is nil. *)
Theorem ValidateShape_spec (p : Parameters) (treeDepth batchSize : Z) :
  (ValidateShape p treeDepth batchSize <> None <->
     len (IdComms p) <> batchSize
     \/ len (MerkleProofs p) <> batchSize
     \/ exists i proof, MerkleProofs p !! i = Some proof /\ len proof <> treeDepth)
  /\ (len (IdComms p) <> batchSize ->
      ValidateShape p treeDepth batchSize
      = Some ("wrong number of identity commitments: " +:+ pretty (len (IdComms p))))
  /\ (len (IdComms p) = batchSize ->
      len (MerkleProofs p) <> batchSize ->
      ValidateShape p treeDepth batchSize
      = Some ("wrong number of merkle proofs: " +:+ pretty (len (MerkleProofs p))))
  /\ (len (IdComms p) = batchSize ->
      len (MerkleProofs p) = batchSize ->
      forall (i : nat) (proof : list Z),
        MerkleProofs p !! i = Some proof ->
        len proof <> treeDepth ->
        (forall j proof', (j < i)%nat -> MerkleProofs p !! j = Some proof' ->
                          len proof' = treeDepth) ->
        ValidateShape p treeDepth batchSize
        = Some ("wrong size of merkle proof for proof " +:+ pretty (Z.of_nat i) +:+ ": "
                +:+ pretty (len proof)))
  /\ (len (IdComms p) = batchSize ->
      len (MerkleProofs p) = batchSize ->
      (forall i proof, MerkleProofs p !! i = Some proof -> len proof = treeDepth) ->
      ValidateShape p treeDepth batchSize = None).
Proof.
  unfold ValidateShape.
  destruct (Z.eqb_spec (len (IdComms p)) batchSize) as [Hids|Hids]; cbn [negb].
  2:{ repeat split; try (intros; contradiction); try (intros; discriminate); auto. }
  destruct (Z.eqb_spec (len (MerkleProofs p)) batchSize) as [Hmps|Hmps]; cbn [negb].
  2:{ repeat split; try (intros; contradiction); try (intros; discriminate); auto. }
  split; [split|repeat split].
  - intros Hne.
    destruct (ValidateShape_proofs 0 (MerkleProofs p) treeDepth) as [e|] eqn:E;
      [|congruence].
    right; right. eapply ValidateShape_proofs_Some, E.
  - intros [?|[?|(i & proof & Hi & Hbad)]]; [contradiction..|].
    destruct (ValidateShape_proofs 0 (MerkleProofs p) treeDepth) as [e|] eqn:E;
      [discriminate|].
    exfalso. exact (Hbad (ValidateShape_proofs_None_inv _ _ _ E i proof Hi)).
  - intros; contradiction.
  - intros; contradiction.
  - intros _ _ i proof Hi Hbad Hfirst.
    rewrite (ValidateShape_proofs_first 0 _ _ i proof Hi Hbad Hfirst). reflexivity.
  - intros _ _ Hall. apply ValidateShape_proofs_None, Hall.
Qed.

(** ** Programs: sequencing, indexing and loops *)

Lemma index_lookup `{Extern} {T} (l : list T) (k : nat) (x : T) :
  l !! k = Some x -> index l (Z.of_nat k) = Ret x.
Proof.
  intros Hk. unfold index.
  destruct (Z.ltb_spec (Z.of_nat k) 0) as [?|_]; [lia|].
  rewrite Nat2Z.id, Hk. reflexivity.
Qed.

Lemma store_insert `{Extern} {T} (l : list T) (k : nat) (v : T) :
  (k < length l)%nat -> store l (Z.of_nat k) v = Ret (<[k := v]> l).
Proof.
  intros Hk. unfold store, len.
  destruct (Z.leb_spec 0 (Z.of_nat k)) as [_|?]; [|lia].
  destruct (Z.ltb_spec (Z.of_nat k) (Z.of_nat (length l))) as [_|?]; [|lia].
  cbn [andb]. rewrite Nat2Z.id. reflexivity.
Qed.

(** A loop whose body takes the state [I k] to [I (S k)] at every index [k]
    it visits ends in the state of the last index. *)
Lemma for_loop_inv `{Extern} {S} (I : nat -> S) (body : Z -> S -> prog S)
    (count start : nat) :
  (forall k, (start <= k < start + count)%nat -> body (Z.of_nat k) (I k) = Ret (I (Datatypes.S k))) ->
  for_loop count (Z.of_nat start) body (I start) = Ret (I (start + count)%nat).
Proof.
  revert start. induction count as [|count IH]; intros start Hbody.
  - cbn [for_loop]. rewrite Nat.add_0_r. reflexivity.
  - cbn [for_loop]. rewrite (Hbody start) by lia. cbn [bind].
    replace (Z.of_nat start + 1) with (Z.of_nat (Datatypes.S start)) by lia.
    rewrite IH.
    + f_equal. f_equal. lia.
    + intros k Hk. apply Hbody. lia.
Qed.

Lemma filled_0 {T U} (f : T -> U) (zero : U) (src : list T) :
  filled f zero src 0 = replicate (length src) zero.
Proof. unfold filled. rewrite take_0, Nat.sub_0_r. reflexivity. Qed.

Lemma filled_all {T U} (f : T -> U) (zero : U) (src : list T) :
  filled f zero src (length src) = map f src.
Proof.
  unfold filled. rewrite firstn_all, Nat.sub_diag. cbn [replicate].
  apply app_nil_r.
Qed.

Lemma filled_length {T U} (f : T -> U) (zero : U) (src : list T) (k : nat) :
  (k <= length src)%nat -> length (filled f zero src k) = length src.
Proof.
  intros Hk. unfold filled.
  rewrite length_app, length_map, length_take, length_replicate. lia.
Qed.

Lemma filled_step {T U} (f : T -> U) (zero : U) (src : list T) (k : nat) (x : T) (y : U) :
  src !! k = Some x ->
  y = f x ->
  <[k := y]> (filled f zero src k) = filled f zero src (S k).
Proof.
  intros Hk ->. unfold filled.
  pose proof (lookup_lt_Some _ _ _ Hk) as Hlt.
  rewrite insert_app_r_alt by (rewrite length_map, length_take; lia).
  rewrite length_map, length_take, Nat.min_l by lia.
  rewrite Nat.sub_diag.
  replace (length src - k)%nat with (S (length src - S k)) by lia.
  cbn [replicate]. cbn.
  rewrite (take_S_r _ _ _ Hk), map_app, <- app_assoc. reflexivity.
Qed.

Lemma filled_lookup {T U} (f : T -> U) (zero : U) (src : list T) (k : nat) :
  (k < length src)%nat -> filled f zero src k !! k = Some zero.
Proof.
  intros Hk. unfold filled.
  rewrite lookup_app_r by (rewrite length_map, length_take; lia).
  rewrite length_map, length_take, Nat.min_l by lia.
  rewrite Nat.sub_diag.
  replace (length src - k)%nat with (S (length src - S k)) by lia.
  reflexivity.
Qed.

(** ** [Prove] *)

(** The first loop of [Prove] copies the identity commitments. *)
Lemma Prove_idComms_loop `{Extern} (ids : list Z) (n : Z) :
  len ids = n ->
  for_loop (Z.to_nat n) 0
    (fun i idComms => v <- index ids i ;; store idComms i (Some (big_Int_value v)))
    (make None n)
  = Ret (map (fun v => Some (big_Int_value v)) ids).
Proof.
  intros <-. unfold make, len. rewrite Nat2Z.id.
  set (f := fun v : Z => Some (big_Int_value v)).
  rewrite <- (filled_0 f None ids), <- (filled_all f None ids).
  apply (for_loop_inv (filled f None ids) _ (length ids) 0).
  intros k Hk.
  destruct (lookup_lt_is_Some_2 ids k ltac:(lia)) as [x Hx].
  rewrite (index_lookup _ _ _ Hx). cbn [bind].
  rewrite store_insert by (rewrite filled_length; lia).
  f_equal. apply (filled_step f None ids k x); [exact Hx | reflexivity].
Qed.

(** The second, nested loop copies the Merkle proofs, row by row. *)
Lemma Prove_proofs_loop `{Extern} (mps : list (list Z)) (n treeDepth : Z) :
  len mps = n ->
  (forall k row, mps !! k = Some row -> len row = treeDepth) ->
  for_loop (Z.to_nat n) 0
    (fun i proofs =>
       proofs <- store proofs i (make None treeDepth) ;;
       for_loop (Z.to_nat treeDepth) 0
         (fun j proofs =>
            dst <- index proofs i ;;
            row <- index mps i ;;
            v <- index row j ;;
            dst <- store dst j (Some (big_Int_value v)) ;;
            store proofs i dst)
         proofs)
    (make [] n)
  = Ret (map (map (fun v => Some (big_Int_value v))) mps).
Proof.
  intros <- Hrows. unfold make at 2. unfold len. rewrite Nat2Z.id.
  set (f := fun v : Z => Some (big_Int_value v)).
  rewrite <- (filled_0 (map f) [] mps), <- (filled_all (map f) [] mps).
  apply (for_loop_inv (filled (map f) [] mps) _ (length mps) 0).
  intros k Hk.
  destruct (lookup_lt_is_Some_2 mps k ltac:(lia)) as [row Hrow].
  pose proof (Hrows k row Hrow) as Hlen. unfold len in Hlen.
  assert (k < length (filled (map f) [] mps k))%nat as Hkl
      by (rewrite filled_length; lia).
  rewrite store_insert by exact Hkl. cbn [bind].
  rewrite <- Hlen, Nat2Z.id. unfold make. rewrite Nat2Z.id.
  rewrite <- (filled_0 f None row).
  set (J := fun j => <[k := filled f None row j]> (filled (map f) [] mps k)).
  change (<[k := filled f None row 0]> (filled (map f) [] mps k)) with (J 0%nat).
  rewrite (for_loop_inv J _ (length row) 0).
  - f_equal. unfold J. cbn [Nat.add]. rewrite filled_all.
    apply (filled_step (map f) [] mps k row); [exact Hrow | reflexivity].
  - intros j Hj. unfold J.
    rewrite (index_lookup _ k (filled f None row j))
      by (apply list_lookup_insert_eq; exact Hkl).
    cbn [bind]. rewrite (index_lookup _ _ _ Hrow). cbn [bind].
    destruct (lookup_lt_is_Some_2 row j ltac:(lia)) as [x Hx].
    rewrite (index_lookup _ _ _ Hx). cbn [bind].
    rewrite store_insert by (rewrite filled_length; lia). cbn [bind].
    rewrite store_insert by (rewrite length_insert; exact Hkl).
    rewrite list_insert_insert_eq.
    rewrite (filled_step f None row j x (Some (big_Int_value x)) Hx eq_refl).
    reflexivity.
Qed.

(** After a successful validation [Prove] hands the complete assignment to the
    backend and returns what the backend answers. *)
Lemma Prove_valid `{Extern} (ps : ProvingSystem) (params : Parameters) :
  ValidateShape params (TreeDepth ps) (BatchSize ps) = None ->
  Prove ps params
  = Do (frontend_NewWitness (spec_assignment params) false)
      (fun r =>
         match r with
         | inr err => Ret (inr err)
         | inl witness =>
             Do (Logger_Info "generating proof")
               (fun _ =>
                  Do (groth16_Prove (ConstraintSystem ps) (ProvingKey ps) witness)
                    (fun r =>
                       match r with
                       | inr err => Ret (inr err)
                       | inl proof =>
                           Do (Logger_Info "proof generated successfully")
                             (fun _ => Ret (inl {| Proof_ := proof |}))
                       end))
         end).
Proof.
  intros Hvalid. unfold Prove. rewrite Hvalid.
  destruct (ValidateShape_None_inv _ _ _ Hvalid) as (Hids & Hmps & Hrows).
  rewrite (Prove_idComms_loop _ _ Hids). cbn [bind].
  rewrite (Prove_proofs_loop _ _ _ Hmps Hrows). reflexivity.
Qed.

(** ** Running programs *)

Lemma run_bind `{Handler} {A B} (m : prog A) (f : A -> prog B) (w : World) :
  run (bind m f) w
  = match run m w with
    | (Returned a, tr, w1) =>
        let '(r, tr2, w2) := run (f a) w1 in (r, tr ++ tr2, w2)
    | (Panicked msg, tr, w1) => (Panicked msg, tr, w1)
    end.
Proof.
  revert w. induction m as [a|msg|X c k IH]; intros w; cbn [bind run].
  - destruct (run (f a) w) as [[r tr] w2]. reflexivity.
  - reflexivity.
  - destruct (handle X c w) as [x w1]. rewrite IH.
    destruct (run (k x) w1) as [[[a|msg] tr] w2]; [|reflexivity].
    destruct (run (f a) w2) as [[r tr2] w3]. reflexivity.
Qed.

(** [Prove] never panics: the indices of its loops stay inside the slices that
    the validation has measured. *)
Lemma Prove_returns `{Handler} (ps : ProvingSystem) (params : Parameters) (w : World) :
  exists r, result_of (Prove ps params) w = Returned r.
Proof.
  unfold result_of.
  destruct (ValidateShape params (TreeDepth ps) (BatchSize ps)) as [err|] eqn:Hv.
  - unfold Prove. rewrite Hv. eexists. reflexivity.
  - rewrite (Prove_valid _ _ Hv). cbn [run].
    destruct (handle _ (frontend_NewWitness (spec_assignment params) false) w)
      as [[witness|err] w1]; cbn [run]; [|eexists; reflexivity].
    destruct (handle _ (Logger_Info "generating proof") w1) as [u w2].
    destruct (handle _ (groth16_Prove (ConstraintSystem ps) (ProvingKey ps) witness) w2)
      as [[proof|err] w3]; cbn [run]; [|eexists; reflexivity].
    destruct (handle _ (Logger_Info "proof generated successfully") w3) as [u' w4].
    eexists. reflexivity.
Qed.

(** C4. When the shape of the parameters does not match the depth and batch
    size stored in the proving system, [Prove] returns exactly the error of
    [ValidateShape] without a single call: no witness is built and the backend
    is not reached. When the validation passes, [Prove] builds the assignment
    from all six fields of the parameters, asks for the full witness and then
    for the proof; an error of either call is what [Prove] returns, and
    otherwise it returns the proof. *)
Theorem Prove_validates_first `{Handler} (ps : ProvingSystem) (params : Parameters) :
  (forall err,
     ValidateShape params (TreeDepth ps) (BatchSize ps) = Some err ->
     Prove ps params = Ret (inr err)
     /\ forall w, run (Prove ps params) w = (Returned (inr err), [], w))
  /\ (ValidateShape params (TreeDepth ps) (BatchSize ps) = None ->
      let new_witness := frontend_NewWitness (spec_assignment params) false in
      Prove ps params
      = Do new_witness
          (fun r =>
             match r with
             | inr err => Ret (inr err)
             | inl witness =>
                 Do (Logger_Info "generating proof")
                   (fun _ =>
                      Do (groth16_Prove (ConstraintSystem ps) (ProvingKey ps) witness)
                        (fun r =>
                           match r with
                           | inr err => Ret (inr err)
                           | inl proof =>
                               Do (Logger_Info "proof generated successfully")
                                 (fun _ => Ret (inl {| Proof_ := proof |}))
                           end))
             end)
      /\ forall w,
           let answer := (handle _ new_witness w).1 in
           let w1 := (handle _ new_witness w).2 in
           let w2 := (handle _ (Logger_Info "generating proof") w1).2 in
           (forall err, answer = inr err ->
              run (Prove ps params) w
              = (Returned (inr err), [Ev new_witness (inr err)], w1))
           /\ (forall witness err,
                 answer = inl witness ->
                 (handle _ (groth16_Prove (ConstraintSystem ps) (ProvingKey ps) witness) w2).1
                 = inr err ->
                 result_of (Prove ps params) w = Returned (inr err))
           /\ (forall witness proof,
                 answer = inl witness ->
                 (handle _ (groth16_Prove (ConstraintSystem ps) (ProvingKey ps) witness) w2).1
                 = inl proof ->
                 result_of (Prove ps params) w = Returned (inl {| Proof_ := proof |}))).
Proof.
  split.
  - intros err Hv. unfold Prove. rewrite Hv. split; [reflexivity|]. intros w. reflexivity.
  - intros Hv new_witness. split; [exact (Prove_valid ps params Hv)|].
    intros w answer w1 w2. unfold result_of. rewrite (Prove_valid ps params Hv).
    fold new_witness. cbn [run]. subst answer w1 w2.
    destruct (handle _ new_witness w) as [[witness|err] w1]; cbn [fst snd run].
    + destruct (handle _ (Logger_Info "generating proof") w1) as [u w2]. cbn [fst snd].
      repeat split.
      * intros err Herr. discriminate Herr.
      * intros witness' err Hw Hp. injection Hw as <-.
        destruct (handle _ (groth16_Prove (ConstraintSystem ps) (ProvingKey ps) witness) w2)
          as [r w3]. cbn [fst] in Hp. subst r. reflexivity.
      * intros witness' proof Hw Hp. injection Hw as <-.
        destruct (handle _ (groth16_Prove (ConstraintSystem ps) (ProvingKey ps) witness) w2)
          as [r w3]. cbn [fst] in Hp. subst r. cbn [run].
        destruct (handle _ (Logger_Info "proof generated successfully") w3) as [u' w4].
        reflexivity.
    + repeat split.
      * intros err' Herr. injection Herr as <-. reflexivity.
      * intros witness err' Hw. discriminate Hw.
      * intros witness proof Hw. discriminate Hw.
Qed.

(** ** [Verify] *)

Lemma omap_replicate_None (n : nat) :
  omap (fun v : frontend_Variable => v) (replicate n None) = [].
Proof. induction n as [|n IH]; [reflexivity | exact IH]. Qed.

(** [Verify] as the two calls it makes. *)
Lemma Verify_program `{Extern} (ps : ProvingSystem) (inputHash : Z) (proof : prover_Proof) :
  Verify ps inputHash proof
  = Do (frontend_NewWitness
          {| Circuit.InputHash := Some (big_Int_value inputHash);
             Circuit.StartIndex := None;
             Circuit.PreRoot := None;
             Circuit.PostRoot := None;
             Circuit.IdComms := replicate (Z.to_nat (BatchSize ps)) None;
             Circuit.MerkleProofs := [];
             Circuit.BatchSize := 0;
             Circuit.Depth := 0 |} true)
      (fun r =>
         match r with
         | inr err => Ret (Some err)
         | inl witness => Do (groth16_Verify (Proof_ proof) (VerifyingKey ps) witness) Ret
         end).
Proof. reflexivity. Qed.

(** Whatever the backend does with an assignment, [Verify] reads nothing of
    the proving system but the verifying key and the batch size. *)
Lemma Verify_same_configuration `{Extern} (ps ps' : ProvingSystem) (inputHash : Z)
    (proof : prover_Proof) :
  VerifyingKey ps = VerifyingKey ps' ->
  BatchSize ps = BatchSize ps' ->
  Verify ps inputHash proof = Verify ps' inputHash proof.
Proof. intros Hvk Hbs. rewrite !Verify_program, Hvk, Hbs. reflexivity. Qed.

(** C5. [Verify] asks for a public-only witness of an assignment whose only
    supplied value is the given input hash (the start index, the roots and
    every entry of [IdComms] are nil, and there are no Merkle proofs) and hands
    that witness, the proof and the stored verifying key to the verification
    of the backend. With a backend whose public-only witness reads the public
    field alone, the result depends on nothing but the input hash, the proof
    and the stored verifying key; no field of the parameters other than the
    hash reaches it. *)
Theorem Verify_public_only `{Handler} (ps : ProvingSystem) (inputHash : Z)
    (proof : prover_Proof) :
  (forall a a' w, Circuit.InputHash a = Circuit.InputHash a' ->
     handle _ (frontend_NewWitness a true) w = handle _ (frontend_NewWitness a' true) w) ->
  (exists a,
     Verify ps inputHash proof
     = Do (frontend_NewWitness a true)
         (fun r =>
            match r with
            | inr err => Ret (Some err)
            | inl witness => Do (groth16_Verify (Proof_ proof) (VerifyingKey ps) witness) Ret
            end)
     /\ supplied_values a = [("InputHash", big_Int_value inputHash)]
     /\ Circuit.StartIndex a = None
     /\ Circuit.PreRoot a = None
     /\ Circuit.PostRoot a = None
     /\ Forall (fun v => v = None) (Circuit.IdComms a)
     /\ Circuit.MerkleProofs a = [])
  /\ (forall ps' w,
        VerifyingKey ps' = VerifyingKey ps ->
        result_of (Verify ps' inputHash proof) w = result_of (Verify ps inputHash proof) w
        /\ (run (Verify ps' inputHash proof) w).2 = (run (Verify ps inputHash proof) w).2)
  /\ (forall p p' : Parameters,
        InputHash p = InputHash p' ->
        Verify ps (InputHash p) proof = Verify ps (InputHash p') proof).
Proof.
  intros Hpublic. split; [|split].
  - eexists. split; [apply Verify_program|].
    cbn [Circuit.StartIndex Circuit.PreRoot Circuit.PostRoot Circuit.IdComms
         Circuit.MerkleProofs].
    repeat split.
    + unfold supplied_values.
      cbn [Circuit.InputHash Circuit.StartIndex Circuit.PreRoot Circuit.PostRoot
           Circuit.IdComms Circuit.MerkleProofs concat].
      rewrite omap_replicate_None. reflexivity.
    + apply Forall_replicate. reflexivity.
  - intros ps' w Hvk. unfold result_of. rewrite !Verify_program, Hvk. cbn [run].
    rewrite (Hpublic
               {| Circuit.InputHash := Some (big_Int_value inputHash);
                  Circuit.StartIndex := None;
                  Circuit.PreRoot := None;
                  Circuit.PostRoot := None;
                  Circuit.IdComms := replicate (Z.to_nat (BatchSize ps')) None;
                  Circuit.MerkleProofs := [];
                  Circuit.BatchSize := 0;
                  Circuit.Depth := 0 |}
               {| Circuit.InputHash := Some (big_Int_value inputHash);
                  Circuit.StartIndex := None;
                  Circuit.PreRoot := None;
                  Circuit.PostRoot := None;
                  Circuit.IdComms := replicate (Z.to_nat (BatchSize ps)) None;
                  Circuit.MerkleProofs := [];
                  Circuit.BatchSize := 0;
                  Circuit.Depth := 0 |} w eq_refl).
    destruct (handle _ _ w) as [[witness|err] w1]; cbn [run]; [|split; reflexivity].
    destruct (handle _ (groth16_Verify (Proof_ proof) (VerifyingKey ps) witness) w1)
      as [r w2].
    split; reflexivity.
  - intros p p' Hh. rewrite Hh. reflexivity.
Qed.

Lemma Verify_public_only_witness :
  (forall a a' w, Circuit.InputHash a = Circuit.InputHash a' ->
     @handle Fake.extern Fake.handler _ (frontend_NewWitness a true) w
     = @handle Fake.extern Fake.handler _ (frontend_NewWitness a' true) w)
  /\ @result_of Fake.extern Fake.handler _
       (Verify (Fake.system 9 4 7) 5 (Fake.proof 7 5)) 0%nat
     = @result_of Fake.extern Fake.handler _
         (Verify (Fake.system 2 2 7) 5 (Fake.proof 7 5)) 0%nat.
Proof.
  assert (forall a a' w, Circuit.InputHash a = Circuit.InputHash a' ->
            @handle Fake.extern Fake.handler _ (frontend_NewWitness a true) w
            = @handle Fake.extern Fake.handler _ (frontend_NewWitness a' true) w) as Hpublic.
  { intros a a' w Heq. cbn. unfold Fake.new_witness. rewrite Heq. reflexivity. }
  split; [exact Hpublic|].
  exact (proj1 (proj1 (proj2 (@Verify_public_only Fake.extern Fake.handler
                                (Fake.system 2 2 7) 5 (Fake.proof 7 5) Hpublic))
                  (Fake.system 9 4 7) 0%nat eq_refl)).
Defined.

(** ** The [/prove] handler *)

Lemma response_status_app `{Extern} (tr1 tr2 : list Event) :
  Forall (fun e => event_status e = None) tr1 ->
  response_status (tr1 ++ tr2) = response_status tr2.
Proof.
  intros Hsilent. unfold response_status. rewrite omap_app.
  replace (omap event_status tr1) with (@nil Z); [reflexivity|].
  induction Hsilent as [|e tr1 He _ IH]; [reflexivity|].
  cbn [omap list_omap]. rewrite He. exact IH.
Qed.

Lemma response_body_app `{Extern} (tr1 tr2 : list Event) :
  Forall (fun e => event_body e = []) tr1 ->
  response_body (tr1 ++ tr2) = response_body tr2.
Proof.
  intros Hsilent. unfold response_body. rewrite flat_map_app.
  replace (flat_map event_body tr1) with (@nil byte); [reflexivity|].
  induction Hsilent as [|e tr1 He _ IH]; [reflexivity|].
  cbn [flat_map]. rewrite He. exact IH.
Qed.

(** [Prove] does not touch the response. *)
Lemma Prove_trace_silent `{Handler} (ps : ProvingSystem) (params : Parameters) (w : World) :
  Forall (fun e => event_status e = None /\ event_body e = [])
    (trace_of (Prove ps params) w).
Proof.
  unfold trace_of.
  destruct (ValidateShape params (TreeDepth ps) (BatchSize ps)) as [err|] eqn:Hv.
  - unfold Prove. rewrite Hv. constructor.
  - rewrite (Prove_valid _ _ Hv). cbn [run].
    destruct (handle _ (frontend_NewWitness (spec_assignment params) false) w)
      as [[witness|err] w1]; cbn [run fst snd]; [|repeat constructor].
    destruct (handle _ (Logger_Info "generating proof") w1) as [u w2].
    destruct (handle _ (groth16_Prove (ConstraintSystem ps) (ProvingKey ps) witness) w2)
      as [[proof|err] w3]; cbn [run fst snd]; [|repeat constructor].
    destruct (handle _ (Logger_Info "proof generated successfully") w3) as [u' w4].
    repeat constructor.
Qed.

(** [send] answers with the status of the error and its encoding. *)
Lemma send_response `{Handler} `{!Json} (e : Error) (w : World) (b : list byte) :
  MarshalJSON e = inl b ->
  response_status (trace_of (send e) w) = Some (StatusCode e)
  /\ response_body (trace_of (send e) w) = b.
Proof.
  intros Hb. unfold trace_of, send. rewrite Hb. cbn [bind call run].
  destruct (handle _ (ResponseWriter_WriteHeader (StatusCode e)) w) as [u w1].
  destruct (handle _ (ResponseWriter_Write b) w1) as [[n err] w2].
  destruct (not_nil err || negb (n =? len b)); cbn [call run].
  - destruct (handle _ (Logger_Error err "error writing response") w2) as [u' w3].
    cbn. rewrite app_nil_r. split; reflexivity.
  - cbn. rewrite app_nil_r. split; reflexivity.
Qed.

(** What the handler does after the body has been read without an error: the
    trace from there on, for a body [buf] and the world [w2] after the read. *)
Lemma ServeHTTP_trace_after_read `{Handler} `{!Json} (handler : proveHandler) (r : Request)
    (w : World) :
  Method r = MethodPost ->
  let w1 := (handle _ (Logger_Info "received prove request") w).2 in
  let rd := handle _ (io_ReadAll (Body r)) w1 in
  exists e1 e2,
    event_status e1 = None /\ event_body e1 = [] /\
    event_status e2 = None /\ event_body e2 = [] /\
    trace_of (ServeHTTP handler r) w
    = e1 :: e2 ::
      match rd.1.2 with
      | Some err => trace_of (send (malformedBodyError err)) rd.2
      | None =>
          match json_Unmarshal_Parameters rd.1.1 with
          | inr err => trace_of (send (malformedBodyError err)) rd.2
          | inl params =>
              let pr := run (Prove (provingSystem handler) params) rd.2 in
              pr.1.2 ++
              match pr.1.1 with
              | Panicked _ => []
              | Returned (inr err) => trace_of (send (provingError err)) pr.2
              | Returned (inl proof) =>
                  match json_Marshal_Proof proof with
                  | inr err => trace_of (send (unexpectedError err)) pr.2
                  | inl responseBytes =>
                      trace_of
                        (Do (ResponseWriter_WriteHeader StatusOK)
                           (fun _ => Do (ResponseWriter_Write responseBytes)
                                       (fun _ => Ret tt))) pr.2
                  end
              end
          end
      end.
Proof.
  intros Hm w1 rd. subst rd w1. unfold trace_of, ServeHTTP.
  rewrite Hm, String.eqb_refl. cbn [negb bind call run].
  destruct (handle _ (Logger_Info "received prove request") w) as [u w1]. cbn [snd].
  destruct (handle _ (io_ReadAll (Body r)) w1) as [[buf rerr] w2]. cbn [fst snd].
  exists (Ev (Logger_Info "received prove request") u),
         (Ev (io_ReadAll (Body r)) (buf, rerr)).
  do 4 (split; [reflexivity|]).
  destruct rerr as [err|].
  - destruct (run (send (malformedBodyError err)) w2) as [[r0 tr] w3]. reflexivity.
  - destruct (json_Unmarshal_Parameters buf) as [params|err].
    + rewrite run_bind.
      destruct (run (Prove (provingSystem handler) params) w2) as [[[[proof|err]|msg] tr] w3];
        cbn [fst snd].
      * destruct (json_Marshal_Proof proof) as [responseBytes|err].
        -- cbn [bind call run].
           destruct (handle _ (ResponseWriter_WriteHeader StatusOK) w3) as [x w4].
           destruct (handle _ (ResponseWriter_Write responseBytes) w4) as [x0 w5].
           reflexivity.
        -- destruct (run (send (unexpectedError err)) w3) as [[r0 tr2] w4]. reflexivity.
      * destruct (run (send (provingError err)) w3) as [[r0 tr2] w4]. reflexivity.
      * rewrite app_nil_r. reflexivity.
    + destruct (run (send (malformedBodyError err)) w2) as [[r0 tr] w3]. reflexivity.
Qed.

(** C7. A POST request to the prove endpoint is answered with status 400 and
    the body [{code: malformed_body, message}] when reading the body or
    decoding it fails; with status 400 and the code [proving_error] when
    [Prove] fails, be it at the validation or in the backend; with status 500
    and the code [unexpected_error] when the proof cannot be serialised; and
    with status 200 and the serialised proof otherwise. The message is the
    text of the error. (Encoding a string map as JSON does not fail.) *)
Theorem ServeHTTP_POST `{Handler} `{!Json} (handler : proveHandler) (r : Request)
    (w : World) :
  Method r = MethodPost ->
  (forall m, exists b, json_Marshal_map m = inl b) ->
  let w1 := (handle _ (Logger_Info "received prove request") w).2 in
  let rd := handle _ (io_ReadAll (Body r)) w1 in
  let buf := rd.1.1 in
  let rerr := rd.1.2 in
  let w2 := rd.2 in
  let tr := trace_of (ServeHTTP handler r) w in
  (forall err,
     rerr = Some err ->
     response_status tr = Some 400
     /\ spec_error_body "malformed_body" err (response_body tr))
  /\ (forall err,
        rerr = None ->
        json_Unmarshal_Parameters buf = inr err ->
        response_status tr = Some 400
        /\ spec_error_body "malformed_body" err (response_body tr))
  /\ (forall params,
        rerr = None ->
        json_Unmarshal_Parameters buf = inl params ->
        exists pr, result_of (Prove (provingSystem handler) params) w2 = Returned pr)
  /\ (forall params err,
        rerr = None ->
        json_Unmarshal_Parameters buf = inl params ->
        result_of (Prove (provingSystem handler) params) w2 = Returned (inr err) ->
        response_status tr = Some 400
        /\ spec_error_body "proving_error" err (response_body tr))
  /\ (forall params proof err,
        rerr = None ->
        json_Unmarshal_Parameters buf = inl params ->
        result_of (Prove (provingSystem handler) params) w2 = Returned (inl proof) ->
        json_Marshal_Proof proof = inr err ->
        response_status tr = Some 500
        /\ spec_error_body "unexpected_error" err (response_body tr))
  /\ (forall params proof responseBytes,
        rerr = None ->
        json_Unmarshal_Parameters buf = inl params ->
        result_of (Prove (provingSystem handler) params) w2 = Returned (inl proof) ->
        json_Marshal_Proof proof = inl responseBytes ->
        response_status tr = Some 200
        /\ response_body tr = responseBytes).
Proof.
  intros Hm Htotal w1 rd buf rerr w2 tr.
  destruct (ServeHTTP_trace_after_read handler r w Hm)
    as (e1 & e2 & Hs1 & Hb1 & Hs2 & Hb2 & Htr).
  fold tr in Htr. cbv zeta in Htr. fold w1 in Htr. fold rd in Htr.
  fold buf in Htr. fold rerr in Htr. fold w2 in Htr.
  assert (forall tail, response_status (e1 :: e2 :: tail) = response_status tail) as Hst.
  { intros tail. apply (response_status_app [e1; e2]). repeat constructor; assumption. }
  assert (forall tail, response_body (e1 :: e2 :: tail) = response_body tail) as Hbd.
  { intros tail. apply (response_body_app [e1; e2]). repeat constructor; assumption. }
  assert (forall e b, MarshalJSON e = inl b ->
            spec_error_body (Code e) (Message e) b) as Hbody.
  { intros e b Hb. exact Hb. }
  assert (forall e w', response_status (trace_of (send e) w') = Some (StatusCode e)
                       /\ spec_error_body (Code e) (Message e)
                            (response_body (trace_of (send e) w'))) as Hsend.
  { intros e w'. destruct (Htotal (<["code" := Code e]> (<["message" := Message e]> ∅)))
      as [b Hb].
    destruct (send_response e w' b Hb) as [Hs Hbq]. rewrite Hs, Hbq.
    split; [reflexivity | exact Hb]. }
  assert (forall params tail,
            response_status ((run (Prove (provingSystem handler) params) w2).1.2 ++ tail)
            = response_status tail
            /\ response_body ((run (Prove (provingSystem handler) params) w2).1.2 ++ tail)
               = response_body tail) as Hsilent.
  { intros params tail.
    pose proof (Prove_trace_silent (provingSystem handler) params w2) as Hs.
    split; [apply response_status_app | apply response_body_app];
      (eapply Forall_impl; [exact Hs|]); intros e [? ?]; assumption. }
  rewrite Htr, Hst, Hbd. clear Htr Hst Hbd.
  split; [|split; [|split; [|split; [|split]]]].
  - intros err Hr. rewrite Hr. apply (Hsend (malformedBodyError err)).
  - intros err Hr Hu. rewrite Hr, Hu. apply (Hsend (malformedBodyError err)).
  - intros params _ _. apply Prove_returns.
  - intros params err Hr Hu Hp. rewrite Hr, Hu. cbv zeta.
    rewrite (proj1 (Hsilent params _)), (proj2 (Hsilent params _)).
    unfold result_of in Hp. rewrite Hp. apply (Hsend (provingError err)).
  - intros params proof err Hr Hu Hp Hm'. rewrite Hr, Hu. cbv zeta.
    rewrite (proj1 (Hsilent params _)), (proj2 (Hsilent params _)).
    unfold result_of in Hp. rewrite Hp, Hm'. apply (Hsend (unexpectedError err)).
  - intros params proof responseBytes Hr Hu Hp Hm'. rewrite Hr, Hu. cbv zeta.
    rewrite (proj1 (Hsilent params _)), (proj2 (Hsilent params _)).
    unfold result_of in Hp. rewrite Hp, Hm'.
    unfold trace_of. cbn [run].
    destruct (handle _ (ResponseWriter_WriteHeader StatusOK) _) as [u w4].
    destruct (handle _ (ResponseWriter_Write responseBytes) w4) as [x w5].
    cbn. rewrite app_nil_r. split; reflexivity.
Qed.

Lemma ServeHTTP_POST_witness :
  Method (Fake.request "POST" []) = MethodPost
  /\ (forall m, exists b, @json_Marshal_map Fake.extern Fake.json m = inl b)
  /\ response_status
       (@trace_of Fake.extern Fake.handler _
          (@ServeHTTP Fake.extern Fake.json
             {| provingSystem := Fake.system 0 2 7 |} (Fake.request "POST" [])) 0%nat)
     = Some 400.
Proof.
  assert (forall m, exists b, @json_Marshal_map Fake.extern Fake.json m = inl b) as Htotal.
  { intros m. eexists. reflexivity. }
  split; [reflexivity|]. split; [exact Htotal|].
  exact (proj1 (proj1 (proj2 (@ServeHTTP_POST Fake.extern Fake.handler Fake.json
                                {| provingSystem := Fake.system 0 2 7 |}
                                (Fake.request "POST" []) 0%nat eq_refl Htotal))
                  "unexpected end of JSON input"%string eq_refl eq_refl)).
Defined.

(** C8. A request whose method is not POST is answered with status 405 and
    no body: the handler makes the one call that writes the status, it reads
    nothing of the request body, and neither [Prove] nor the backend is
    reached. *)
Theorem ServeHTTP_method_not_allowed `{Handler} `{!Json} (handler : proveHandler)
    (r : Request) (w : World) :
  Method r <> MethodPost ->
  ServeHTTP handler r = Do (ResponseWriter_WriteHeader 405) Ret
  /\ trace_of (ServeHTTP handler r) w = [Ev (ResponseWriter_WriteHeader 405) tt]
  /\ result_of (ServeHTTP handler r) w = Returned tt
  /\ response_status (trace_of (ServeHTTP handler r) w) = Some 405
  /\ response_body (trace_of (ServeHTTP handler r) w) = []
  /\ Forall (fun e => is_body_read e = false) (trace_of (ServeHTTP handler r) w)
  /\ Forall (fun e => is_backend_call e = false) (trace_of (ServeHTTP handler r) w).
Proof.
  intros Hm.
  assert (ServeHTTP handler r = Do (ResponseWriter_WriteHeader 405) Ret) as Hprog.
  { unfold ServeHTTP. apply String.eqb_neq in Hm. rewrite Hm. reflexivity. }
  split; [exact Hprog|].
  unfold trace_of, result_of. rewrite Hprog. cbn [run].
  destruct (handle _ (ResponseWriter_WriteHeader 405) w) as [[] w1]. cbn [fst snd].
  repeat split; repeat constructor.
Qed.

Lemma ServeHTTP_method_not_allowed_witness :
  Method (Fake.request "GET" [x01; x02]) <> MethodPost
  /\ @trace_of Fake.extern Fake.handler _
       (@ServeHTTP Fake.extern Fake.json
          {| provingSystem := Fake.system 0 2 7 |} (Fake.request "GET" [x01; x02])) 0%nat
     = [Ev (ResponseWriter_WriteHeader 405) tt].
Proof.
  assert (Method (Fake.request "GET" [x01; x02]) <> MethodPost) as Hm by discriminate.
  split; [exact Hm|].
  exact (proj1 (proj2 (@ServeHTTP_method_not_allowed Fake.extern Fake.handler Fake.json
                         {| provingSystem := Fake.system 0 2 7 |}
                         (Fake.request "GET" [x01; x02]) 0%nat Hm))).
Defined.

(** ** The programs at work on the fake backend *)

Example keccak256_empty :
  be_value (keccak256_Hash [])
  = 0xc5d2460186f7233c927e7db2dcc703c0e500b653ca82273b7bfad8045d85a470.
Proof. vm_compute. reflexivity. Qed.

Example keccak256_abc :
  be_value (keccak256_Hash [x61; x62; x63])
  = 0x4e03657aea45a94fc7d47ba826c8d667c0d1e6e33a64a036ec44f58fa12d6c45.
Proof. vm_compute. reflexivity. Qed.

Example ValidateShape_short_proof :
  ValidateShape sample_params' 2 2 = Some "wrong number of merkle proofs: 1".
Proof. vm_compute. reflexivity. Qed.

Example ValidateShape_wrong_row :
  ValidateShape sample_params 3 2 = Some "wrong size of merkle proof for proof 0: 2".
Proof. vm_compute. reflexivity. Qed.

Example ValidateShape_sample : ValidateShape sample_params 2 2 = None.
Proof. vm_compute. reflexivity. Qed.

Example Prove_then_Verify_sample :
  let ps := Fake.system 2 2 7 in
  let params := (ComputeInputHash sample_params).2 in
  exists proof,
    @result_of Fake.extern Fake.handler _ (Prove ps params) 0%nat = Returned (inl proof)
    /\ @result_of Fake.extern Fake.handler _ (Verify ps (InputHash params) proof) 0%nat
       = Returned None.
Proof. eexists. split; vm_compute; reflexivity. Qed.

Example ServeHTTP_sample_ok :
  let tr := @trace_of Fake.extern Fake.handler _
              (@ServeHTTP Fake.extern Fake.json {| provingSystem := Fake.system 0 2 7 |}
                 (Fake.request "POST" [x09; x01; x02])) 0%nat in
  response_status tr = Some 200.
Proof. vm_compute. reflexivity. Qed.

Example ServeHTTP_sample_unserialisable :
  let tr := @trace_of Fake.extern Fake.handler _
              (@ServeHTTP Fake.extern Fake.json {| provingSystem := Fake.system 0 2 7 |}
                 (Fake.request "POST" [x00; x01; x02])) 0%nat in
  response_status tr = Some 500.
Proof. vm_compute. reflexivity. Qed.

Example ServeHTTP_sample_shape :
  let tr := @trace_of Fake.extern Fake.handler _
              (@ServeHTTP Fake.extern Fake.json {| provingSystem := Fake.system 0 2 7 |}
                 (Fake.request "POST" [x09; x01])) 0%nat in
  response_status tr = Some 400
  /\ response_body tr
     = bytes_of_string "code=proving_error;message=wrong number of identity commitments: 1;".
Proof. vm_compute. split; reflexivity. Qed.

(** * More of the two files *)

(** ** [toBytesLE] *)

Lemma insert_middle {A} (pre : list A) (x v : A) (rest : list A) (i : nat) :
  i = length pre -> <[i := v]> (pre ++ x :: rest) = pre ++ v :: rest.
Proof.
  intros ->. rewrite insert_app_r_alt by lia. rewrite Nat.sub_diag. reflexivity.
Qed.

Lemma at_index_middle (pre : list byte) (x : byte) (rest : list byte) (i : Z) :
  i = len pre -> at_index (pre ++ x :: rest) i = Some x.
Proof.
  intros ->. unfold at_index, len.
  destruct (Z.ltb_spec (Z.of_nat (length pre)) 0) as [?|_]; [lia|].
  rewrite Nat2Z.id. apply list_lookup_middle. reflexivity.
Qed.

Ltac solve_len :=
  unfold len; repeat (rewrite length_app || cbn [length]); lia.

Lemma two_ends {A} (l : list A) :
  (2 <= length l)%nat -> exists x mid y, l = x :: mid ++ [y].
Proof.
  intros Hl. destruct l as [|x l]; [simpl in Hl; lia|].
  destruct (exists_last (l := l)) as (mid & y & ->).
  - intros ->. simpl in Hl. lia.
  - exists x, mid, y. reflexivity.
Qed.

(** The loop, started with [pre] and [post] already exchanged, reverses what
    lies between them. *)
Lemma toBytesLE_loop_rev (count : nat) (mid pre post : list byte) :
  length pre = length post ->
  (length mid / 2)%nat = count ->
  toBytesLE_loop count (len pre) (pre ++ mid ++ post) = Some (pre ++ rev mid ++ post).
Proof.
  revert mid pre post. induction count as [|count IH]; intros mid pre post Hends Hcount.
  - cbn [toBytesLE_loop].
    assert (length mid < 2)%nat as Hshort.
    { destruct (Nat.lt_ge_cases (length mid) 2) as [|Hge]; [assumption|].
      pose proof (Nat.div_le_lower_bound (length mid) 2 1 ltac:(lia) ltac:(lia)). lia. }
    destruct mid as [|x [|y mid]]; [reflexivity..|]. simpl in Hshort. lia.
  - assert (2 <= length mid)%nat as Hlong.
    { destruct (Nat.lt_ge_cases (length mid) 2) as [Hlt|]; [|assumption].
      rewrite Nat.div_small in Hcount by assumption. discriminate Hcount. }
    destruct (two_ends mid Hlong) as (x & inner & y & ->).
    assert ((length inner / 2)%nat = count) as Hinner.
    { rewrite length_cons, length_app in Hcount. cbn [length] in Hcount.
      replace (S (length inner + 1)) with (length inner + 1 * 2)%nat in Hcount by lia.
      rewrite Nat.div_add in Hcount by lia. lia. }
    cbn [toBytesLE_loop].
    replace (pre ++ (x :: inner ++ [y]) ++ post)
      with ((pre ++ x :: inner) ++ y :: post)
      by (rewrite <- !app_assoc; cbn [app]; rewrite <- app_assoc; reflexivity).
    rewrite (at_index_middle (pre ++ x :: inner) y post).
    2:{ solve_len. }
    rewrite <- (app_assoc pre). cbn [app].
    rewrite (at_index_middle pre x (inner ++ y :: post)) by reflexivity.
    rewrite (insert_middle pre x y) by (unfold len; lia).
    replace (pre ++ y :: inner ++ y :: post) with ((pre ++ y :: inner) ++ y :: post)
      by (rewrite <- app_assoc; reflexivity).
    rewrite (insert_middle (pre ++ y :: inner) y x).
    2:{ solve_len. }
    replace (len pre + 1) with (len (pre ++ [y])) by (rewrite len_app; reflexivity).
    replace ((pre ++ y :: inner) ++ x :: post) with ((pre ++ [y]) ++ inner ++ x :: post)
      by (rewrite <- !app_assoc; reflexivity).
    rewrite (IH inner (pre ++ [y]) (x :: post)).
    + f_equal. cbn [rev]. rewrite rev_app_distr. cbn [rev app].
      rewrite <- !app_assoc. reflexivity.
    + rewrite length_app. cbn [length]. lia.
    + exact Hinner.
Qed.

Lemma le_value_app (l k : list byte) :
  le_value (l ++ k) = le_value l + 256 ^ len l * le_value k.
Proof.
  induction l as [|b l IH].
  - cbn [app]. change (len (@nil byte)) with 0. change (le_value []) with 0. lia.
  - change (le_value ((b :: l) ++ k)) with (Z_of_byte b + 256 * le_value (l ++ k)).
    change (le_value (b :: l)) with (Z_of_byte b + 256 * le_value l).
    rewrite IH.
    replace (len (b :: l)) with (Z.succ (len l)) by (unfold len; simpl; lia).
    rewrite Z.pow_succ_r by apply len_nonneg. lia.
Qed.

Lemma be_value_rev (bs : list byte) : be_value (rev bs) = le_value bs.
Proof.
  induction bs as [|b bs IH]; [reflexivity|].
  cbn [rev]. rewrite be_value_app, IH.
  change (len [b]) with 1. change (be_value [b]) with (0 * 256 + Z_of_byte b).
  change (le_value (b :: bs)) with (Z_of_byte b + 256 * le_value bs). lia.
Qed.

(** X1. [toBytesLE] never runs out of the slice and leaves it reversed,
    whatever its length: empty, odd or even. *)
Theorem toBytesLE_reverses (b : list byte) : toBytesLE b = Some (rev b).
Proof.
  unfold toBytesLE.
  pose proof (toBytesLE_loop_rev (Z.to_nat (len b / 2)) b [] [] eq_refl) as Hloop.
  cbn [app] in Hloop. rewrite app_nil_r in Hloop. rewrite app_nil_r in Hloop.
  apply Hloop. unfold len.
  rewrite <- (Nat2Z.id (length b / 2)). f_equal.
  rewrite Nat2Z.inj_div. reflexivity.
Qed.

(** X2. The bytes that [toBytesLE] returns after a big-endian string are the
    little-endian string of the same number, and applying [toBytesLE] twice
    gives the slice back. *)
Theorem toBytesLE_endianness (b : list byte) :
  exists r,
    toBytesLE b = Some r
    /\ le_value r = be_value b
    /\ length r = length b
    /\ toBytesLE r = Some b.
Proof.
  exists (rev b). split; [|split; [|split]].
  - unfold toBytesLE.
    pose proof (toBytesLE_loop_rev (Z.to_nat (len b / 2)) b [] [] eq_refl) as Hloop.
    cbn [app] in Hloop. rewrite !app_nil_r in Hloop. apply Hloop.
    unfold len. rewrite <- (Nat2Z.id (length b / 2)). f_equal.
    rewrite Nat2Z.inj_div. reflexivity.
  - rewrite <- be_value_rev, rev_involutive. reflexivity.
  - apply length_rev.
  - unfold toBytesLE.
    pose proof (toBytesLE_loop_rev (Z.to_nat (len (rev b) / 2)) (rev b) [] [] eq_refl)
      as Hloop.
    cbn [app] in Hloop. rewrite !app_nil_r, rev_involutive in Hloop. apply Hloop.
    unfold len. rewrite <- (Nat2Z.id (length (rev b) / 2)). f_equal.
    rewrite Nat2Z.inj_div. reflexivity.
Qed.

(** ** More on the input hash *)

Lemma Z_of_byte_inj (a b : byte) : Z_of_byte a = Z_of_byte b -> a = b.
Proof.
  intros Heq. rewrite <- (byte_of_Z_of_byte a), <- (byte_of_Z_of_byte b), Heq. reflexivity.
Qed.

(** Among the strings of one length, the big-endian value tells the string. *)
Lemma be_value_inj (l k : list byte) :
  length l = length k -> be_value l = be_value k -> l = k.
Proof.
  revert k. induction l as [|a l IH]; intros [|b k] Hlen Hval; try discriminate Hlen.
  - reflexivity.
  - injection Hlen as Hlen. rewrite !be_value_cons in Hval.
    pose proof (be_value_range l) as Hl. pose proof (be_value_range k) as Hk.
    pose proof (Z_of_byte_range a) as Ha. pose proof (Z_of_byte_range b) as Hb.
    assert (len l = len k) as Hlen' by (unfold len; lia).
    rewrite Hlen' in *.
    assert (0 < 256 ^ len k) as Hpos by (apply Z.pow_pos_nonneg; [lia | apply len_nonneg]).
    assert (Z_of_byte a = Z_of_byte b) as Hab by nia.
    rewrite Hab in Hval.
    f_equal; [apply Z_of_byte_inj, Hab | apply IH; [exact Hlen | lia]].
Qed.

(** The minimal representation does not start with a zero byte. *)
Lemma spec_minimal_be_head (v : Z) (b : byte) (rest : list byte) :
  spec_minimal_be v = b :: rest -> b <> x00.
Proof.
  intros Hbs ->.
  pose proof (spec_minimal_be_value v) as Hval. rewrite Hbs, be_value_cons in Hval.
  change (Z_of_byte x00) with 0 in Hval.
  pose proof (be_value_range rest) as Hrest.
  assert (length (spec_minimal_be v) = S (length rest)) as Hlen by (rewrite Hbs; reflexivity).
  unfold spec_minimal_be in Hlen. rewrite spec_be_fixed_length in Hlen.
  assert (v <> 0) as Hne.
  { intros ->. unfold spec_byte_length in Hlen. simpl in Hlen. discriminate Hlen. }
  pose proof (spec_byte_length_bounds v) as [_ Hlo]. specialize (Hlo Hne).
  rewrite Hlen in Hlo. unfold len in Hrest.
  replace (Z.of_nat (S (length rest)) - 1) with (Z.of_nat (length rest)) in Hlo by lia.
  lia.
Qed.

(** A string without a leading zero byte is the minimal representation of
    its value. *)
Lemma spec_minimal_be_of_value (bs : list byte) :
  head bs <> Some x00 -> spec_minimal_be (be_value bs) = bs.
Proof.
  intros Hhead.
  pose proof (be_value_range bs) as Hrange.
  apply be_value_inj.
  - unfold spec_minimal_be. rewrite spec_be_fixed_length.
    destruct bs as [|b rest]; [reflexivity|].
    assert (0 < Z_of_byte b) as Hb.
    { pose proof (Z_of_byte_range b).
      destruct (Z.eq_dec (Z_of_byte b) 0) as [Hz|]; [|lia].
      exfalso. apply Hhead. cbn. f_equal. apply Z_of_byte_inj. exact Hz. }
    assert (256 ^ len rest <= be_value (b :: rest)) as Hlo.
    { rewrite be_value_cons. pose proof (be_value_range rest).
      assert (0 < 256 ^ len rest) by (apply Z.pow_pos_nonneg; [lia | apply len_nonneg]).
      nia. }
    set (v := be_value (b :: rest)) in *.
    assert (v <> 0) as Hne.
    { assert (0 < 256 ^ len rest) by (apply Z.pow_pos_nonneg; [lia | apply len_nonneg]). lia. }
    pose proof (spec_byte_length_bounds v) as [Hhi' Hlo']. specialize (Hlo' Hne).
    rewrite Z.abs_eq in Hhi', Hlo' by lia.
    destruct Hrange as [_ Hhi].
    replace (len (b :: rest)) with (len rest + 1) in Hhi by (unfold len; simpl; lia).
    assert (256 ^ len rest < 256 ^ Z.of_nat (spec_byte_length v)) as H1 by lia.
    assert (256 ^ (Z.of_nat (spec_byte_length v) - 1) < 256 ^ (len rest + 1)) as H2 by lia.
    apply Z.pow_lt_mono_r_iff in H1; [|lia|lia].
    apply Z.pow_lt_mono_r_iff in H2; [|lia|pose proof (len_nonneg rest); lia].
    unfold len in *. cbn [length]. lia.
  - rewrite spec_minimal_be_value. apply Z.abs_eq. lia.
Qed.

Lemma spec_minimal_be_abs (v : Z) : spec_minimal_be (Z.abs v) = spec_minimal_be v.
Proof.
  unfold spec_minimal_be, spec_byte_length. rewrite Z.abs_idemp.
  destruct (Z.eqb_spec v 0), (Z.eqb_spec (Z.abs v) 0); try reflexivity; lia.
Qed.

Lemma spec_pad_left_long (n : nat) (bs : list byte) :
  (n <= length bs)%nat -> spec_pad_left n bs = bs.
Proof.
  intros Hlen. unfold spec_pad_left.
  replace (n - length bs)%nat with 0%nat by lia. reflexivity.
Qed.

(** X3. A commitment that needs more than 32 bytes is neither cut nor
    rejected: its contribution to the hashed data is its whole minimal
    big-endian representation. For every commitment the contribution has
    [max 32 n] bytes, [n] the length of the minimal representation, and its
    big-endian value is the magnitude of the commitment. *)
Theorem idComm_bytes_never_truncates (v : Z) :
  length (idComm_bytes v) = Nat.max 32 (length (big_Int_Bytes v))
  /\ be_value (idComm_bytes v) = Z.abs v
  /\ ((32 < length (big_Int_Bytes v))%nat -> idComm_bytes v = big_Int_Bytes v)
  /\ (2 ^ 256 <= Z.abs v -> (32 < length (idComm_bytes v))%nat).
Proof.
  rewrite idComm_bytes_spec, big_Int_Bytes_spec.
  split; [|split; [|split]].
  - unfold spec_pad_left. rewrite length_app, length_replicate. lia.
  - rewrite spec_pad_left_value. apply spec_minimal_be_value.
  - intros Hlong. apply spec_pad_left_long. lia.
  - intros Hbig.
    pose proof (be_value_range (spec_pad_left 32 (spec_minimal_be v))) as [_ Hhi].
    rewrite spec_pad_left_value, spec_minimal_be_value in Hhi.
    assert (2 ^ 256 < 256 ^ len (spec_pad_left 32 (spec_minimal_be v))) as Hlt by lia.
    change (2 ^ 256) with (256 ^ 32) in Hlt.
    apply Z.pow_lt_mono_r_iff in Hlt; [|lia|apply len_nonneg]. unfold len in Hlt. lia.
Qed.

(** X4. The hashed data is 4 bytes for the start index, the minimal bytes of
    the two roots and, for each commitment, 32 bytes or more when its
    representation is longer. *)
Theorem ComputeInputHash_data_length (p : Parameters) :
  exists data,
    ComputeInputHash_data p = inl data
    /\ length data
       = (4 + length (big_Int_Bytes (PreRoot p)) + length (big_Int_Bytes (PostRoot p))
          + list_sum (map (fun v => Nat.max 32 (length (big_Int_Bytes v))) (IdComms p)))%nat.
Proof.
  exists (spec_encoding p). split; [apply ComputeInputHash_data_spec|].
  unfold spec_encoding. rewrite !length_app, spec_be_fixed_length, !big_Int_Bytes_spec.
  rewrite <- !Nat.add_assoc. do 3 f_equal.
  induction (IdComms p) as [|v ids IH]; [reflexivity|].
  cbn [map concat]. rewrite length_app, IH.
  change (list_sum (?a :: ?l)) with (a + list_sum l)%nat.
  rewrite big_Int_Bytes_spec. unfold spec_pad_left.
  rewrite length_app, length_replicate. lia.
Qed.

(** X5. The input hash does not see signs: parameters that agree on the
    start index and on the magnitudes of the roots and of the commitments get
    the same input hash. *)
Theorem ComputeInputHash_ignores_signs (p q : Parameters) :
  StartIndex p = StartIndex q ->
  Z.abs (PreRoot p) = Z.abs (PreRoot q) ->
  Z.abs (PostRoot p) = Z.abs (PostRoot q) ->
  map Z.abs (IdComms p) = map Z.abs (IdComms q) ->
  InputHash (ComputeInputHash p).2 = InputHash (ComputeInputHash q).2.
Proof.
  intros Hs Hpre Hpost Hids. rewrite !ComputeInputHash_spec. cbn [snd set_InputHash InputHash].
  unfold spec_input_hash, spec_encoding. rewrite Hs.
  rewrite <- (spec_minimal_be_abs (PreRoot p)), <- (spec_minimal_be_abs (PostRoot p)).
  rewrite Hpre, Hpost, !spec_minimal_be_abs.
  assert (forall ids, map (fun v => spec_pad_left 32 (spec_minimal_be v)) ids
                      = map (fun v => spec_pad_left 32 (spec_minimal_be v)) (map Z.abs ids))
    as Habs.
  { intros ids. rewrite map_map. apply map_ext. intros v.
    rewrite spec_minimal_be_abs. reflexivity. }
  rewrite (Habs (IdComms p)), (Habs (IdComms q)), Hids. reflexivity.
Qed.

Lemma ComputeInputHash_ignores_signs_witness :
  PreRoot sample_params <> PreRoot sample_params_negated
  /\ IdComms sample_params <> IdComms sample_params_negated
  /\ InputHash (ComputeInputHash sample_params).2
     = InputHash (ComputeInputHash sample_params_negated).2.
Proof.
  split; [discriminate|]. split; [discriminate|].
  exact (ComputeInputHash_ignores_signs sample_params sample_params_negated
           eq_refl eq_refl eq_refl eq_refl).
Defined.

(** X6. The two roots are written one after the other without their lengths,
    so the hashed data does not tell where [PreRoot] ends: with a non-zero
    [PreRoot], the parameters whose [PreRoot] holds the bytes of both roots
    and whose [PostRoot] is zero get the same input hash, and they are other
    parameters whenever [PostRoot] is not zero. *)
Theorem ComputeInputHash_root_boundary (p : Parameters) :
  PreRoot p <> 0 ->
  ComputeInputHash_data (roots_merged p) = ComputeInputHash_data p
  /\ InputHash (ComputeInputHash (roots_merged p)).2 = InputHash (ComputeInputHash p).2
  /\ (PostRoot p <> 0 ->
      PreRoot (roots_merged p) <> PreRoot p /\ PostRoot (roots_merged p) <> PostRoot p).
Proof.
  intros Hpre.
  assert (spec_encoding (roots_merged p) = spec_encoding p) as Henc.
  { unfold spec_encoding, roots_merged.
    cbn [StartIndex PreRoot PostRoot IdComms]. f_equal.
    change (spec_minimal_be 0) with (@nil byte). cbn [app].
    rewrite (app_assoc (spec_minimal_be (PreRoot p))). f_equal.
    rewrite big_Int_Bytes_spec.
    rewrite <- (spec_minimal_be_value (PreRoot p)), <- (spec_minimal_be_value (PostRoot p)).
    rewrite <- be_value_app. apply spec_minimal_be_of_value.
    destruct (spec_minimal_be (PreRoot p)) as [|b rest] eqn:Hbs.
    - pose proof (spec_minimal_be_value (PreRoot p)) as Hval. rewrite Hbs in Hval.
      change (be_value []) with 0 in Hval. lia.
    - cbn. intros Hhead. injection Hhead as ->.
      exact (spec_minimal_be_head _ _ _ Hbs eq_refl). }
  split; [|split].
  - rewrite !ComputeInputHash_data_spec, Henc. reflexivity.
  - rewrite !ComputeInputHash_spec. cbn [snd set_InputHash InputHash].
    unfold spec_input_hash. rewrite Henc. reflexivity.
  - intros Hpost. cbn [roots_merged PreRoot PostRoot]. split; [|congruence].
    assert (1 <= len (big_Int_Bytes (PostRoot p))) as Hlen.
    { rewrite big_Int_Bytes_spec.
      destruct (spec_minimal_be (PostRoot p)) as [|b rest] eqn:Hbs.
      - pose proof (spec_minimal_be_value (PostRoot p)) as Hval. rewrite Hbs in Hval.
        change (be_value []) with 0 in Hval. lia.
      - unfold len. cbn [length]. lia. }
    assert (256 ^ 1 <= 256 ^ len (big_Int_Bytes (PostRoot p))) as Hpow
        by (apply Z.pow_le_mono_r; lia).
    change (256 ^ 1) with 256 in Hpow. nia.
Qed.

Lemma ComputeInputHash_root_boundary_witness :
  PreRoot sample_params <> 0
  /\ PreRoot (roots_merged sample_params) = 83951616
  /\ PostRoot (roots_merged sample_params) = 0
  /\ InputHash (ComputeInputHash (roots_merged sample_params)).2
     = InputHash (ComputeInputHash sample_params).2.
Proof.
  assert (PreRoot sample_params <> 0) as Hpre by discriminate.
  split; [exact Hpre|]. split; [vm_compute; reflexivity|]. split; [reflexivity|].
  exact (proj1 (proj2 (ComputeInputHash_root_boundary sample_params Hpre))).
Defined.

(** X7. Computing the input hash twice is computing it once: the hash that
    is stored does not enter the data that is hashed. *)
Theorem ComputeInputHash_idempotent (p : Parameters) :
  ComputeInputHash (ComputeInputHash p).2 = ComputeInputHash p.
Proof.
  rewrite (ComputeInputHash_spec p). cbn [snd].
  rewrite ComputeInputHash_spec. reflexivity.
Qed.

(** X8. The input hash that [ComputeInputHash] stores is a number of at most
    256 bits, and never negative. *)
Theorem ComputeInputHash_range (p : Parameters) :
  0 <= InputHash (ComputeInputHash p).2 < 2 ^ 256.
Proof.
  rewrite ComputeInputHash_spec. cbn [snd set_InputHash InputHash]. unfold spec_input_hash.
  pose proof (be_value_range (keccak256_Hash (spec_encoding p))) as Hrange.
  unfold len in Hrange. rewrite keccak256_Hash_length in Hrange.
  change (256 ^ Z.of_nat 32) with (2 ^ 256) in Hrange. exact Hrange.
Qed.

(** ** More on [ValidateShape], [Prove] and [Verify] *)

Lemma ValidateShape_proofs_lengths (i : Z) (ps qs : list (list Z)) (treeDepth : Z) :
  map length ps = map length qs ->
  ValidateShape_proofs i ps treeDepth = ValidateShape_proofs i qs treeDepth.
Proof.
  revert i qs. induction ps as [|p ps IH]; intros i [|q qs] Hlen; try discriminate Hlen.
  - reflexivity.
  - cbn [map] in Hlen. injection Hlen as Hpq Hrest.
    cbn [ValidateShape_proofs]. unfold len. rewrite Hpq.
    destruct (negb (Z.of_nat (length q) =? treeDepth)); [reflexivity|].
    apply IH, Hrest.
Qed.

(** X9. [ValidateShape] looks at lengths only: parameters with as many
    commitments and with Merkle proofs of the same lengths get the same
    answer, whatever numbers they hold. *)
Theorem ValidateShape_lengths_only (p q : Parameters) (treeDepth batchSize : Z) :
  length (IdComms p) = length (IdComms q) ->
  map length (MerkleProofs p) = map length (MerkleProofs q) ->
  ValidateShape p treeDepth batchSize = ValidateShape q treeDepth batchSize.
Proof.
  intros Hids Hmps. unfold ValidateShape, len. rewrite Hids.
  assert (length (MerkleProofs p) = length (MerkleProofs q)) as Hn.
  { rewrite <- (length_map length (MerkleProofs p)), Hmps. apply length_map. }
  rewrite Hn, (ValidateShape_proofs_lengths 0 _ _ treeDepth Hmps). reflexivity.
Qed.

Lemma ValidateShape_lengths_only_witness :
  sample_params <> sample_params_negated
  /\ ValidateShape sample_params 2 2 = ValidateShape sample_params_negated 2 2.
Proof.
  split; [discriminate|].
  exact (ValidateShape_lengths_only sample_params sample_params_negated 2 2 eq_refl eq_refl).
Defined.

(** The four ways [Prove] can go. *)
Lemma Prove_run_cases `{Handler} (ps : ProvingSystem) (params : Parameters) (w : World) :
  let nw := frontend_NewWitness (spec_assignment params) false in
  (exists e,
     ValidateShape params (TreeDepth ps) (BatchSize ps) = Some e
     /\ run (Prove ps params) w = (Returned (inr e), [], w))
  \/ (exists e w1,
        ValidateShape params (TreeDepth ps) (BatchSize ps) = None
        /\ run (Prove ps params) w = (Returned (inr e), [Ev nw (inr e)], w1))
  \/ (exists witness u e w3,
        ValidateShape params (TreeDepth ps) (BatchSize ps) = None
        /\ run (Prove ps params) w
           = (Returned (inr e),
              [Ev nw (inl witness); Ev (Logger_Info "generating proof") u;
               Ev (groth16_Prove (ConstraintSystem ps) (ProvingKey ps) witness) (inr e)],
              w3))
  \/ (exists witness u proof u' w4,
        ValidateShape params (TreeDepth ps) (BatchSize ps) = None
        /\ run (Prove ps params) w
           = (Returned (inl {| Proof_ := proof |}),
              [Ev nw (inl witness); Ev (Logger_Info "generating proof") u;
               Ev (groth16_Prove (ConstraintSystem ps) (ProvingKey ps) witness) (inl proof);
               Ev (Logger_Info "proof generated successfully") u'],
              w4)).
Proof.
  intros nw.
  destruct (ValidateShape params (TreeDepth ps) (BatchSize ps)) as [err|] eqn:Hv.
  - left. exists err. split; [reflexivity|]. unfold Prove. rewrite Hv. reflexivity.
  - right. rewrite (Prove_valid _ _ Hv). fold nw. cbn [run].
    destruct (handle _ nw w) as [[witness|err] w1]; cbn [run].
    + right.
      destruct (handle _ (Logger_Info "generating proof") w1) as [u w2].
      destruct (handle _ (groth16_Prove (ConstraintSystem ps) (ProvingKey ps) witness) w2)
        as [[proof|err] w3]; cbn [run].
      * right.
        destruct (handle _ (Logger_Info "proof generated successfully") w3) as [u' w4].
        exists witness, u, proof, u', w4. split; reflexivity.
      * left. exists witness, u, err, w3. split; reflexivity.
    + left. exists err, w1. split; reflexivity.
Qed.




(** X12. [Verify] never panics and never logs. When the public witness
    cannot be built it returns that error and the verification of the backend
    is not called; otherwise it returns, unchanged, what the verification
    answers. *)
Theorem Verify_call_sequence `{Handler} (ps : ProvingSystem) (inputHash : Z)
    (proof : prover_Proof) (w : World) :
  exists r tr w',
    run (Verify ps inputHash proof) w = (Returned r, tr, w')
    /\ log_of tr = []
    /\ ((call_names tr = ["frontend.NewWitness"]
         /\ exists a err, tr = [Ev (frontend_NewWitness a true) (inr err)] /\ r = Some err)
        \/ (call_names tr = ["frontend.NewWitness"; "groth16.Verify"]
            /\ exists a witness,
                 tr = [Ev (frontend_NewWitness a true) (inl witness);
                       Ev (groth16_Verify (Proof_ proof) (VerifyingKey ps) witness) r])).
Proof.
  rewrite Verify_program. cbn [run].
  destruct (handle _ _ w) as [[witness|err] w1]; cbn [run].
  - destruct (handle _ (groth16_Verify (Proof_ proof) (VerifyingKey ps) witness) w1)
      as [r w2].
    do 3 eexists. split; [reflexivity|]. split; [reflexivity|].
    right. split; [reflexivity|]. do 2 eexists. reflexivity.
  - do 3 eexists. split; [reflexivity|]. split; [reflexivity|].
    left. split; [reflexivity|]. do 2 eexists. split; reflexivity.
Qed.

(** ** More on [send] *)

(** [send] makes two calls on the response writer and, when the write went
    wrong, one on the logger. *)
Lemma send_run `{Handler} `{!Json} (e : Error) (w : World) :
  let body := match MarshalJSON e with
              | inl b => b
              | inr _ => marshal_failure_body
              end in
  let w1 := (handle _ (ResponseWriter_WriteHeader (StatusCode e)) w).2 in
  let written := (handle _ (ResponseWriter_Write body) w1).1 in
  exists w',
    run (send e) w
    = (Returned tt,
       Ev (ResponseWriter_WriteHeader (StatusCode e)) tt
       :: Ev (ResponseWriter_Write body) written
       :: (if not_nil written.2 || negb (written.1 =? len body)
           then [Ev (Logger_Error written.2 "error writing response") tt]
           else []),
       w').
Proof.
  intros body w1 written. subst written w1. unfold send. fold body. cbn [bind call run].
  destruct (handle _ (ResponseWriter_WriteHeader (StatusCode e)) w) as [[] w1]. cbn [snd].
  destruct (handle _ (ResponseWriter_Write body) w1) as [[n err] w2]. cbn [fst snd].
  destruct (not_nil err || negb (n =? len body)); cbn [call run].
  - destruct (handle _ (Logger_Error err "error writing response") w2) as [[] w3].
    eexists. reflexivity.
  - eexists. reflexivity.
Qed.


(** X14. When the error cannot be encoded, [send] answers with the fixed
    body whose code is [unexpected_error], under the status of the error it
    was given: the status had been written before the encoding was tried. *)
Theorem send_marshal_failure `{Handler} `{!Json} (e : Error) (w : World) (err : error) :
  MarshalJSON e = inr err ->
  response_status (trace_of (send e) w) = Some (StatusCode e)
  /\ response_body (trace_of (send e) w) = marshal_failure_body.
Proof.
  intros Hm. unfold trace_of. destruct (send_run e w) as [w' Hrun]. rewrite Hrun.
  cbn [fst snd]. rewrite Hm. split; [reflexivity|].
  unfold response_body.
  clear Hrun.
  match goal with |- context [if ?c then _ else _] => destruct c end;
    cbn [flat_map event_body app]; rewrite ?app_nil_r; reflexivity.
Qed.

Lemma send_marshal_failure_witness :
  @MarshalJSON Fake.extern BrokenWriter.json (provingError "no") = inr "unsupported type"%string
  /\ response_status
       (@trace_of Fake.extern Fake.handler _
          (@send Fake.extern BrokenWriter.json (provingError "no")) 0%nat)
     = Some 400
  /\ response_body
       (@trace_of Fake.extern Fake.handler _
          (@send Fake.extern BrokenWriter.json (provingError "no")) 0%nat)
     = marshal_failure_body.
Proof.
  split; [reflexivity|].
  exact (@send_marshal_failure Fake.extern Fake.handler BrokenWriter.json
           (provingError "no") 0%nat "unsupported type"%string eq_refl).
Defined.

(** X15. [send] logs [error writing response] exactly when the write reports
    an error or a number of bytes other than the length of the body, and it
    goes on to return all the same; otherwise it logs nothing. *)
Theorem send_logs_failed_write `{Handler} `{!Json} (e : Error) (w : World) :
  let body := match MarshalJSON e with
              | inl b => b
              | inr _ => marshal_failure_body
              end in
  let w1 := (handle _ (ResponseWriter_WriteHeader (StatusCode e)) w).2 in
  let written := (handle _ (ResponseWriter_Write body) w1).1 in
  (written.2 <> None \/ written.1 <> len body ->
   log_of (trace_of (send e) w) = ["error writing response"])
  /\ (written.2 = None /\ written.1 = len body -> log_of (trace_of (send e) w) = [])
  /\ result_of (send e) w = Returned tt.
Proof.
  intros body w1 written. unfold trace_of, result_of.
  destruct (send_run e w) as [w' Hrun]. rewrite Hrun. cbn [fst snd].
  fold body. fold w1. fold written.
  destruct written as [n err]. cbn [fst snd].
  split; [|split; [|reflexivity]].
  - intros [Herr|Hn].
    + destruct err as [msg|]; [reflexivity | congruence].
    + destruct (Z.eqb_spec n (len body)) as [?|_]; [contradiction|].
      rewrite orb_true_r. reflexivity.
  - intros [-> ->]. rewrite Z.eqb_refl. reflexivity.
Qed.

(** ** More on the [/prove] handler *)

Lemma run_bind_after `{Handler} {A B} (m : prog A) (f : A -> prog B) (w : World) :
  run (bind m f) w
  = match (run m w).1.1 with
    | Returned a => after (run m w).1.2 (run (f a) (run m w).2)
    | Panicked msg => (Panicked msg, (run m w).1.2, (run m w).2)
    end.
Proof.
  rewrite run_bind. destruct (run m w) as [[[a|msg] tr] w1]; cbn [fst snd]; [|reflexivity].
  unfold after. destruct (run (f a) w1) as [[r tr2] w2]. reflexivity.
Qed.

(** The whole run of the handler on a POST request. *)
Lemma ServeHTTP_run_POST `{Handler} `{!Json} (handler : proveHandler) (r : Request)
    (w : World) :
  Method r = MethodPost ->
  let logged := handle _ (Logger_Info "received prove request") w in
  let rd := handle _ (io_ReadAll (Body r)) logged.2 in
  run (ServeHTTP handler r) w
  = after [Ev (Logger_Info "received prove request") logged.1;
           Ev (io_ReadAll (Body r)) rd.1]
      match rd.1.2 with
      | Some err => run (send (malformedBodyError err)) rd.2
      | None =>
          match json_Unmarshal_Parameters rd.1.1 with
          | inr err => run (send (malformedBodyError err)) rd.2
          | inl params =>
              let pr := run (Prove (provingSystem handler) params) rd.2 in
              match pr.1.1 with
              | Panicked msg => (Panicked msg, pr.1.2, pr.2)
              | Returned (inr err) => after pr.1.2 (run (send (provingError err)) pr.2)
              | Returned (inl proof) =>
                  match json_Marshal_Proof proof with
                  | inr err => after pr.1.2 (run (send (unexpectedError err)) pr.2)
                  | inl responseBytes =>
                      after pr.1.2
                        (run (Do (ResponseWriter_WriteHeader StatusOK)
                                (fun _ => Do (ResponseWriter_Write responseBytes)
                                            (fun _ => Ret tt))) pr.2)
                  end
              end
          end
      end.
Proof.
  intros Hm logged rd. subst rd logged. unfold ServeHTTP.
  rewrite Hm, String.eqb_refl. cbn [negb bind call run].
  destruct (handle _ (Logger_Info "received prove request") w) as [u w1]. cbn [fst snd].
  destruct (handle _ (io_ReadAll (Body r)) w1) as [[buf rerr] w2]. cbn [fst snd].
  unfold after at 1.
  destruct rerr as [err|].
  - destruct (run (send (malformedBodyError err)) w2) as [[r0 tr] w3]. reflexivity.
  - destruct (json_Unmarshal_Parameters buf) as [params|err].
    + rewrite run_bind_after. cbv zeta.
      destruct (run (Prove (provingSystem handler) params) w2) as [[[[proof|err]|msg] tr] w3];
        cbn [fst snd].
      * destruct (json_Marshal_Proof proof) as [responseBytes|err]; reflexivity.
      * reflexivity.
      * reflexivity.
    + destruct (run (send (malformedBodyError err)) w2) as [[r0 tr] w3]. reflexivity.
Qed.

Ltac use_send_run :=
  match goal with
  | |- context [run (send ?e) ?w] =>
      let w' := fresh "w'" in
      let Hs := fresh "Hs" in
      destruct (send_run e w) as [w' Hs]; rewrite Hs; clear Hs
  end.

Ltac split_write_check :=
  match goal with
  | |- context [if ?c then [Ev (Logger_Error _ _) _] else []] => destruct c
  end.

(** X16. The handler never panics, for any request, backend and codec. It
    writes the response header exactly once, and the body at most once, and it
    never calls the verification of the backend. *)
Theorem ServeHTTP_one_header `{Handler} `{!Json} (handler : proveHandler) (r : Request)
    (w : World) :
  let tr := trace_of (ServeHTTP handler r) w in
  result_of (ServeHTTP handler r) w = Returned tt
  /\ count_calls "WriteHeader" tr = 1%nat
  /\ (count_calls "Write" tr <= 1)%nat
  /\ (Method r = MethodPost -> count_calls "Write" tr = 1%nat)
  /\ count_calls "groth16.Verify" tr = 0%nat.
Proof.
  unfold trace_of, result_of.
  destruct (String.eqb_spec (Method r) MethodPost) as [Hm|Hm].
  - rewrite (ServeHTTP_run_POST handler r w Hm). cbv zeta.
    destruct (handle _ (io_ReadAll (Body r)) _) as [[buf [err|]] w2]; cbn [fst snd].
    + use_send_run. unfold after. cbn [fst snd app].
      split_write_check; repeat split; cbv; lia.
    + destruct (json_Unmarshal_Parameters buf) as [params|err].
      * destruct (Prove_run_cases (provingSystem handler) params w2)
          as [(e & Hv & Hrun)|[(e & w1 & Hv & Hrun)|[(wit & u & e & w3 & Hv & Hrun)
             |(wit & u & proof & u' & w4 & Hv & Hrun)]]];
          rewrite Hrun; cbn [fst snd].
        -- use_send_run. unfold after. cbn [fst snd app].
           split_write_check; repeat split; cbv; lia.
        -- use_send_run. unfold after. cbn [fst snd app].
           split_write_check; repeat split; cbv; lia.
        -- use_send_run. unfold after. cbn [fst snd app].
           split_write_check; repeat split; cbv; lia.
        -- destruct (json_Marshal_Proof _) as [responseBytes|err].
           ++ cbn [run].
              destruct (handle _ (ResponseWriter_WriteHeader StatusOK) w4) as [[] w5].
              destruct (handle _ (ResponseWriter_Write responseBytes) w5) as [x w6].
              unfold after. cbn [fst snd app]. repeat split; cbv; lia.
           ++ use_send_run. unfold after. cbn [fst snd app].
              split_write_check; repeat split; cbv; lia.
      * use_send_run. unfold after. cbn [fst snd app].
        split_write_check; repeat split; cbv; lia.
  - assert (ServeHTTP handler r = Do (ResponseWriter_WriteHeader 405) Ret) as ->.
    { unfold ServeHTTP. apply String.eqb_neq in Hm. rewrite Hm. reflexivity. }
    cbn [run]. destruct (handle _ (ResponseWriter_WriteHeader 405) w) as [[] w1].
    cbn [fst snd]. repeat split; try (cbv; lia). intros; contradiction.
Qed.

(** X17. On the success path the handler does not look at the outcome of
    writing the proof: whatever the write reports, the status is 200, the body
    handed over is the serialised proof, nothing is logged as an error and the
    log reads as for a clean request. *)
Theorem ServeHTTP_success_ignores_write `{Handler} `{!Json} (handler : proveHandler)
    (r : Request) (w : World) (params : Parameters) (proof : prover_Proof)
    (responseBytes : list byte) :
  let logged := handle _ (Logger_Info "received prove request") w in
  let rd := handle _ (io_ReadAll (Body r)) logged.2 in
  let tr := trace_of (ServeHTTP handler r) w in
  Method r = MethodPost ->
  rd.1.2 = None ->
  json_Unmarshal_Parameters rd.1.1 = inl params ->
  result_of (Prove (provingSystem handler) params) rd.2 = Returned (inl proof) ->
  json_Marshal_Proof proof = inl responseBytes ->
  count_calls "Logger.Error" tr = 0%nat
  /\ log_of tr = ["received prove request"; "generating proof";
                  "proof generated successfully"]
  /\ call_names tr = ["Logger.Info"; "io.ReadAll"; "frontend.NewWitness"; "Logger.Info";
                      "groth16.Prove"; "Logger.Info"; "WriteHeader"; "Write"]
  /\ response_status tr = Some 200
  /\ response_body tr = responseBytes.
Proof.
  intros logged rd tr Hm Hread Hdec Hprove Hser. subst tr. unfold trace_of.
  rewrite (ServeHTTP_run_POST handler r w Hm). cbv zeta. fold logged. fold rd.
  rewrite Hread, Hdec. unfold result_of in Hprove.
  destruct (Prove_run_cases (provingSystem handler) params rd.2)
    as [(e & Hv & Hrun)|[(e & w1 & Hv & Hrun)|[(wit & u & e & w3 & Hv & Hrun)
       |(wit & u & proof' & u' & w4 & Hv & Hrun)]]];
    rewrite Hrun in Hprove |- *; cbn [fst snd] in Hprove |- *; try discriminate Hprove.
  injection Hprove as <-. rewrite Hser. cbn [run].
  destruct (handle _ (ResponseWriter_WriteHeader StatusOK) w4) as [[] w5].
  destruct (handle _ (ResponseWriter_Write responseBytes) w5) as [x w6].
  unfold after. cbn [fst snd app].
  repeat split. cbn. apply app_nil_r.
Qed.

Lemma ServeHTTP_success_ignores_write_witness :
  (exists written,
     In (Ev (ResponseWriter_Write (big_Int_Bytes 7 ++ big_Int_Bytes 9)) written)
       (@trace_of Fake.extern BrokenWriter.handler _
          (@ServeHTTP Fake.extern Fake.json sample_handler sample_request) 0%nat)
     /\ written.2 = Some "broken pipe"%string)
  /\ count_calls "Logger.Error"
       (@trace_of Fake.extern BrokenWriter.handler _
          (@ServeHTTP Fake.extern Fake.json sample_handler sample_request) 0%nat)
     = 0%nat.
Proof.
  split.
  - exists (0, Some "broken pipe"%string). split; [|reflexivity].
    vm_compute. do 7 right. left. reflexivity.
  - exact (proj1 (@ServeHTTP_success_ignores_write Fake.extern BrokenWriter.handler
                    Fake.json sample_handler sample_request 0%nat
                    {| InputHash := 9; StartIndex := 9; PreRoot := 0; PostRoot := 0;
                       IdComms := [1; 2]; MerkleProofs := [[]; []] |}
                    (Fake.proof 7 9) (big_Int_Bytes 7 ++ big_Int_Bytes 9)
                    eq_refl eq_refl eq_refl eq_refl eq_refl)).
Defined.

(** X18. The backend is reached only with a body that was read, decoded and
    found to have the right shape: when reading or decoding fails, or
    [ValidateShape] rejects the parameters, the handler makes no call to the
    backend and answers 400; when the shape is right it asks for the witness
    exactly once. *)
Theorem ServeHTTP_backend_gate `{Handler} `{!Json} (handler : proveHandler)
    (r : Request) (w : World) :
  let logged := handle _ (Logger_Info "received prove request") w in
  let rd := handle _ (io_ReadAll (Body r)) logged.2 in
  let tr := trace_of (ServeHTTP handler r) w in
  let ps := provingSystem handler in
  Method r = MethodPost ->
  (rd.1.2 <> None
   \/ (exists err, json_Unmarshal_Parameters rd.1.1 = inr err)
   \/ (exists params,
         json_Unmarshal_Parameters rd.1.1 = inl params
         /\ ValidateShape params (TreeDepth ps) (BatchSize ps) <> None) ->
   Forall (fun e => is_backend_call e = false) tr
   /\ response_status tr = Some 400)
  /\ (forall params,
        rd.1.2 = None ->
        json_Unmarshal_Parameters rd.1.1 = inl params ->
        ValidateShape params (TreeDepth ps) (BatchSize ps) = None ->
        count_calls "frontend.NewWitness" tr = 1%nat
        /\ (count_calls "groth16.Prove" tr <= 1)%nat).
Proof.
  intros logged rd tr ps Hm. subst tr. unfold trace_of.
  rewrite (ServeHTTP_run_POST handler r w Hm). cbv zeta. fold logged. fold rd. fold ps.
  split.
  - intros Hbad.
    destruct rd.1.2 as [err|] eqn:Hread.
    + use_send_run. unfold after. cbn [fst snd app].
      split_write_check; split; repeat constructor.
    + destruct Hbad as [Hbad|[[err Hdec]|(params & Hdec & Hshape)]]; [congruence| |].
      * rewrite Hdec. use_send_run. unfold after. cbn [fst snd app].
        split_write_check; split; repeat constructor.
      * rewrite Hdec.
        destruct (Prove_run_cases ps params rd.2)
          as [(e & Hv & Hrun)|[(e & w1 & Hv & _)|[(wit & u & e & w3 & Hv & _)
             |(wit & u & proof & u' & w4 & Hv & _)]]]; try congruence.
        rewrite Hrun. cbn [fst snd].
        use_send_run. unfold after. cbn [fst snd app].
        split_write_check; split; repeat constructor.
  - intros params Hread Hdec Hshape. rewrite Hread, Hdec.
    destruct (Prove_run_cases ps params rd.2)
      as [(e & Hv & _)|[(e & w1 & Hv & Hrun)|[(wit & u & e & w3 & Hv & Hrun)
         |(wit & u & proof & u' & w4 & Hv & Hrun)]]]; try congruence;
      rewrite Hrun; cbn [fst snd].
    + use_send_run. unfold after. cbn [fst snd app].
      split_write_check; split; cbv; lia.
    + use_send_run. unfold after. cbn [fst snd app].
      split_write_check; split; cbv; lia.
    + destruct (json_Marshal_Proof _) as [responseBytes|err].
      * cbn [run].
        destruct (handle _ (ResponseWriter_WriteHeader StatusOK) w4) as [[] w5].
        destruct (handle _ (ResponseWriter_Write responseBytes) w5) as [x w6].
        unfold after. cbn [fst snd app]. split; cbv; lia.
      * use_send_run. unfold after. cbn [fst snd app].
        split_write_check; split; cbv; lia.
Qed.

Lemma ServeHTTP_backend_gate_witness :
  Method sample_request_short = MethodPost
  /\ Forall (fun e => is_backend_call e = false)
       (@trace_of Fake.extern Fake.handler _
          (@ServeHTTP Fake.extern Fake.json sample_handler sample_request_short) 0%nat).
Proof.
  split; [reflexivity|].
  apply (proj1 (@ServeHTTP_backend_gate Fake.extern Fake.handler Fake.json sample_handler
                  sample_request_short 0%nat eq_refl)).
  right. right.
  exists {| InputHash := 9; StartIndex := 9; PreRoot := 0; PostRoot := 0;
            IdComms := [1]; MerkleProofs := [[]] |}.
  split; [reflexivity | discriminate].
Defined.

(** ** [BuildR1CS] and [Setup] *)

(** The loop of [BuildR1CS] gives every proof its [treeDepth] empty places. *)
Lemma BuildR1CS_circuit_shape `{Extern} (treeDepth batchSize : Z) :
  BuildR1CS_circuit treeDepth batchSize
  = Ret {| Circuit.InputHash := None;
           Circuit.StartIndex := None;
           Circuit.PreRoot := None;
           Circuit.PostRoot := None;
           Circuit.IdComms := replicate (Z.to_nat batchSize) None;
           Circuit.MerkleProofs :=
             replicate (Z.to_nat batchSize) (replicate (Z.to_nat treeDepth) None);
           Circuit.BatchSize := batchSize;
           Circuit.Depth := treeDepth |}.
Proof.
  unfold BuildR1CS_circuit, make.
  set (n := Z.to_nat batchSize). set (row := replicate (Z.to_nat treeDepth) None).
  set (I := fun k : nat => replicate k row
                           ++ replicate (n - k) ([] : list frontend_Variable)).
  assert (replicate n ([] : list frontend_Variable) = I 0%nat) as Hstart.
  { unfold I. rewrite Nat.sub_0_r. reflexivity. }
  rewrite Hstart at 1.
  assert (I n = replicate n row) as Hend.
  { unfold I. rewrite Nat.sub_diag. apply app_nil_r. }
  rewrite (for_loop_inv I _ n 0).
  - cbn [bind Nat.add]. rewrite Hend. reflexivity.
  - intros k Hk. unfold I.
    rewrite store_insert by (rewrite length_app, !length_replicate; lia).
    f_equal.
    replace (n - k)%nat with (S (n - S k)) by lia. cbn [replicate].
    rewrite insert_middle by (rewrite length_replicate; reflexivity).
    rewrite (replicate_cons_app k row), <- app_assoc. reflexivity.
Qed.

(** X19. [Setup] never panics. It compiles the circuit that has [batchSize]
    commitments and [batchSize] Merkle proofs of [treeDepth] places each, all
    unassigned; an error of the compiler is returned before any key is made,
    an error of the key generation is returned as it is, and otherwise the
    proving system holds the very depth and batch size it was asked for, with
    the keys and the constraint system of the backend. *)
Theorem Setup_spec `{SetupBackend} (treeDepth batchSize : Z) (w : World) :
  let circuit :=
    {| Circuit.InputHash := None;
       Circuit.StartIndex := None;
       Circuit.PreRoot := None;
       Circuit.PostRoot := None;
       Circuit.IdComms := replicate (Z.to_nat batchSize) None;
       Circuit.MerkleProofs :=
         replicate (Z.to_nat batchSize) (replicate (Z.to_nat treeDepth) None);
       Circuit.BatchSize := batchSize;
       Circuit.Depth := treeDepth |} in
  let compiled := frontend_Compile circuit w in
  (forall err,
     compiled.1 = inr err -> Setup treeDepth batchSize w = (Returned (inr err), compiled.2))
  /\ (forall ccs err,
        compiled.1 = inl ccs ->
        (groth16_Setup ccs compiled.2).1 = inr err ->
        Setup treeDepth batchSize w
        = (Returned (inr err), (groth16_Setup ccs compiled.2).2))
  /\ (forall ccs pk vk,
        compiled.1 = inl ccs ->
        (groth16_Setup ccs compiled.2).1 = inl (pk, vk) ->
        Setup treeDepth batchSize w
        = (Returned (inl {| TreeDepth := treeDepth;
                            BatchSize := batchSize;
                            ProvingKey := pk;
                            VerifyingKey := vk;
                            ConstraintSystem := ccs |}),
           (groth16_Setup ccs compiled.2).2))
  /\ (exists r, (Setup treeDepth batchSize w).1 = Returned r).
Proof.
  intros circuit compiled. subst compiled.
  unfold Setup, BuildR1CS. rewrite BuildR1CS_circuit_shape. cbn [run]. fold circuit.
  destruct (frontend_Compile circuit w) as [[ccs|err] w1]; cbn [fst snd].
  - destruct (groth16_Setup ccs w1) as [[[pk vk]|err] w2] eqn:Hkeys.
    + repeat split.
      * intros err Herr. discriminate Herr.
      * intros ccs' err Hc. injection Hc as <-. rewrite Hkeys. intros Hk. discriminate Hk.
      * intros ccs' pk' vk' Hc. injection Hc as <-. rewrite Hkeys. cbn [fst snd].
        intros Hk. injection Hk as <- <-. reflexivity.
      * eexists. reflexivity.
    + repeat split.
      * intros err' Herr. discriminate Herr.
      * intros ccs' err' Hc. injection Hc as <-. rewrite Hkeys. cbn [fst snd].
        intros Hk. injection Hk as <-. reflexivity.
      * intros ccs' pk vk Hc. injection Hc as <-. rewrite Hkeys. intros Hk. discriminate Hk.
      * eexists. reflexivity.
  - repeat split.
    + intros err' Herr. injection Herr as <-. reflexivity.
    + intros ccs err' Hc. discriminate Hc.
    + intros ccs pk vk Hc. discriminate Hc.
    + eexists. reflexivity.
Qed.

(** X20. A proving system that [Setup] returned for a depth and a batch size
    turns away, without a call, exactly the parameters that [ValidateShape]
    rejects for that depth and batch size, with the error of [ValidateShape];
    for all others its first call asks the backend for the full witness. *)
Theorem Setup_then_Prove `{SetupBackend} (treeDepth batchSize : Z) (w w' : World)
    (ps : ProvingSystem) (params : Parameters) :
  Setup treeDepth batchSize w = (Returned (inl ps), w') ->
  (forall err,
     ValidateShape params treeDepth batchSize = Some err ->
     forall w0, run (Prove ps params) w0 = (Returned (inr err), [], w0))
  /\ (ValidateShape params treeDepth batchSize = None ->
      forall w0, exists answer rest,
        trace_of (Prove ps params) w0
        = Ev (frontend_NewWitness (spec_assignment params) false) answer :: rest).
Proof.
  intros Hsetup.
  assert (TreeDepth ps = treeDepth /\ BatchSize ps = batchSize) as [Hd Hb].
  { unfold Setup in Hsetup.
    destruct (BuildR1CS treeDepth batchSize w) as [[[ccs|err]|msg] w1];
      try discriminate Hsetup.
    destruct (groth16_Setup ccs w1) as [[[pk vk]|err] w2]; try discriminate Hsetup.
    injection Hsetup as <- _. split; reflexivity. }
  split.
  - intros err Hv w0. unfold Prove. rewrite Hd, Hb, Hv. reflexivity.
  - intros Hv w0. unfold trace_of.
    rewrite <- Hd, <- Hb in Hv. rewrite (Prove_valid ps params Hv). cbn [run].
    destruct (handle _ (frontend_NewWitness (spec_assignment params) false) w0)
      as [answer w1].
    destruct (run _ w1) as [[r rest] w2]. cbn [fst snd]. do 2 eexists. reflexivity.
Qed.

Lemma Setup_then_Prove_witness :
  @Setup Fake.extern Fake.handler FakeSetup.backend 2 2 0%nat
  = (Returned (inl (Fake.system 2 2 7)), 2%nat)
  /\ @run Fake.extern Fake.handler _ (Prove (Fake.system 2 2 7) sample_params') 5%nat
     = (Returned (inr "wrong number of merkle proofs: 1"%string), [], 5%nat).
Proof.
  assert (@Setup Fake.extern Fake.handler FakeSetup.backend 2 2 0%nat
          = (Returned (inl (Fake.system 2 2 7)), 2%nat)) as Hsetup by reflexivity.
  split; [exact Hsetup|].
  exact (proj1 (@Setup_then_Prove Fake.extern Fake.handler FakeSetup.backend 2 2 0%nat 2%nat
                  (Fake.system 2 2 7) sample_params' Hsetup)
           "wrong number of merkle proofs: 1"%string eq_refl 5%nat).
Defined.
